(** * File-Compressor: the word-substitution codec of [main.py]

    A shallow embedding of [compress_file] and [decompress_file] and the
    properties of the record they exchange.

    Python values are modelled as follows.
    - [str] is a list of Unicode code points ([N]); [len] counts code points.
    - [int] is [Z].
    - [dict] is an association list without duplicate keys, in insertion
      order (the order Python iterates a dict in).
    - an exception that reaches the [except Exception] handler of either
      function is an [Error] result; nothing is written in that case.

    File input and output, the JSON library and the interactive loop are
    outside the model: [compress_file] maps the text read from the file and the
    suffix of its path to the record handed to [json.dump], [decompress_file]
    maps the object returned by [json.load] to the restored text and the
    extension used for the output name.

    The name of the file written ([get_unique_filename], with [pathlib] and
    the file system as parameters) and the size check of [compress_file]
    (with [json.dumps] and the UTF-8 encoder written out) are modelled on
    their own. *)

From Stdlib Require Import Ascii String.
From Stdlib Require Import List ZArith NArith Lia Bool Sorted Permutation.
From Stdlib Require DecimalString DecimalZ DecimalPos.
Import ListNotations.

Local Open Scope Z_scope.

(** ** Python values *)

(** A Python [str]: its code points in order. *)
Definition str := list N.

(** The code points of an ASCII literal, for readable examples. *)
Definition lit (s : String.string) : str :=
  map N_of_ascii (String.list_ascii_of_string s).

Arguments lit s%_string.

Definition str_eq_dec : forall s t : str, {s = t} + {s <> t} :=
  list_eq_dec N.eq_dec.

(** [len(s)] *)
Definition len (s : str) : Z := Z.of_nat (length s).

(** [''.join(l)] *)
Definition join (l : list str) : str := concat l.

(** An entry of the [data] list: what [isinstance(item, int)] tells apart. *)
Inductive item : Type :=
| Int (i : Z)
| Str (s : str).

(** The exceptions the two functions can raise on the values modelled here:
    a failed subscript raises [KeyError] with the missing key. *)
Inductive exception : Type :=
| KeyError (key : item).

(** ** Results and the error monad *)

Inductive result (A : Type) : Type :=
| Ok (a : A)
| Error (e : exception).

Arguments Ok {A} a.
Arguments Error {A} e.

Definition bind {A B : Type} (m : result A) (k : A -> result B) : result B :=
  match m with
  | Ok a => k a
  | Error e => Error e
  end.

Notation "x <- m ;; k" := (bind m (fun x => k))
  (at level 61, m at next level, right associativity).

(** A [for] loop whose body may raise: the state is threaded from left to
    right and the first exception leaves the loop. *)
Fixpoint for_each {A S : Type} (body : S -> A -> result S) (l : list A) (s : S)
  : result S :=
  match l with
  | [] => Ok s
  | a :: l' => s' <- body s a ;; for_each body l' s'
  end.

(** ** Python dictionaries *)

Module Dict.
Section Dict.
Context {K V : Type}.
Variable eq_dec : forall x y : K, {x = y} + {x <> y}.

Definition t := list (K * V).

(** [d.get(k)] *)
Fixpoint get (d : t) (k : K) : option V :=
  match d with
  | [] => None
  | (k', v) :: d' => if eq_dec k k' then Some v else get d' k
  end.

(** [d.get(k, default)] *)
Definition get_default (d : t) (k : K) (default : V) : V :=
  match get d k with
  | Some v => v
  | None => default
  end.

(** [k in d] *)
Definition mem (d : t) (k : K) : bool :=
  match get d k with
  | Some _ => true
  | None => false
  end.

(** [d[k] = v]: an existing key keeps its place, a new one goes last. *)
Fixpoint set (d : t) (k : K) (v : V) : t :=
  match d with
  | [] => [(k, v)]
  | (k', v') :: d' =>
      if eq_dec k k' then (k', v) :: d' else (k', v') :: set d' k v
  end.

(** [d.keys()], [d.values()] and [d.items()], in insertion order. *)
Definition keys (d : t) : list K := map fst d.
Definition values (d : t) : list V := map snd d.
Definition items (d : t) : list (K * V) := d.
End Dict.
End Dict.

(** [d[k]] on a dict with [str] keys *)
Definition getitem_str {V : Type} (d : Dict.t) (k : str) : result V :=
  match Dict.get str_eq_dec d k with
  | Some v => Ok v
  | None => Error (KeyError (Str k))
  end.

(** [d[k]] on a dict with [int] keys *)
Definition getitem_int {V : Type} (d : Dict.t) (k : Z) : result V :=
  match Dict.get Z.eq_dec d k with
  | Some v => Ok v
  | None => Error (KeyError (Int k))
  end.

(** ** The tokenizer: [re.split(r"(\s+)", text)] *)

(** [\s] in a [str] pattern: the code points Python regards as whitespace. *)
Definition is_space (c : N) : bool :=
  ((9 <=? c) && (c <=? 13) || (28 <=? c) && (c <=? 32)
   || (c =? 133) || (c =? 160) || (c =? 5760)
   || (8192 <=? c) && (c <=? 8202)
   || (c =? 8232) || (c =? 8233) || (c =? 8239) || (c =? 8287)
   || (c =? 12288))%N.

(** The scan of [re.split] with one capturing group around the separator.
    [in_ws] tells whether the piece being read is a whitespace run (a match of
    [\s+], taken as long as possible) or the text between two matches; [acc]
    holds that piece, reversed.  At a boundary the piece is emitted; the text
    before the first match and after the last one is emitted even when it is
    empty. *)
Fixpoint split_scan (in_ws : bool) (acc : str) (s : str) : list str :=
  match s with
  | [] => if in_ws then [rev acc; []] else [rev acc]
  | c :: s' =>
      if is_space c then
        if in_ws then split_scan true (c :: acc) s'
        else rev acc :: split_scan true [c] s'
      else
        if in_ws then rev acc :: split_scan false [c] s'
        else split_scan false (c :: acc) s'
  end.

Definition re_split (text : str) : list str := split_scan false [] text.

(** ** [sorted(iterable, key=...)] *)

(** The sort key [(-frequency[x], len(x))] and the order of Python tuples. *)
Definition sort_key := (Z * Z)%type.

Definition key_le (a b : sort_key) : bool :=
  (fst a <? fst b) || ((fst a =? fst b) && (snd a <=? snd b)).

Definition key_eqb (a b : sort_key) : bool :=
  (fst a =? fst b) && (snd a =? snd b).

Section Sorted.
Context {A : Type}.

(** Elements travel with their keys, computed once each before sorting. *)
Fixpoint insert_sorted (x : sort_key * A) (l : list (sort_key * A))
  : list (sort_key * A) :=
  match l with
  | [] => [x]
  | y :: l' =>
      if key_le (fst x) (fst y) then x :: y :: l'
      else y :: insert_sorted x l'
  end.

(** A stable sort: an element is placed before the elements that followed
    it in the input and do not have a smaller key. *)
Fixpoint sort_decorated (l : list (sort_key * A)) : list (sort_key * A) :=
  match l with
  | [] => []
  | x :: l' => insert_sorted x (sort_decorated l')
  end.

(** The keys are computed first, one call per element, in list order. *)
Definition decorate (key : A -> result sort_key) (l : list A)
  : result (list (sort_key * A)) :=
  for_each (fun acc x => k <- key x ;; Ok (acc ++ [(k, x)])) l [].

(** [sorted(l, key=key)] where computing a key may raise. *)
Definition sorted (key : A -> result sort_key) (l : list A)
  : result (list A) :=
  decorated <- decorate key l ;;
  Ok (map snd (sort_decorated decorated)).
End Sorted.

(** ** The record *)

(** The object written by [json.dump] and read back by [json.load]: a JSON
    object that may hold the fields ["extension"], ["words"] and ["data"].
    A field that is present has the type the format gives it: a string, an
    object whose values are integers, an array of integers and strings. *)
Record record : Type := mk_record {
  extension : option str;
  words : option (@Dict.t str Z);
  data : option (list item)
}.

(** ** [compress_file] *)

(** Line 35: [frequency[token] = frequency.get(token, 0) + 1]. *)
Definition frequency_step (frequency : @Dict.t str Z) (token : str)
  : @Dict.t str Z :=
  Dict.set str_eq_dec frequency token
    (Dict.get_default str_eq_dec frequency token 0 + 1).

(** Lines 33-35: count the occurrences of each token. *)
Definition count_frequency (tokens : list str) : @Dict.t str Z :=
  fold_left frequency_step tokens [].

(** The key of line 38: [(-frequency[x], len(x))]. *)
Definition token_key (frequency : @Dict.t str Z) (x : str) : result sort_key :=
  f <- getitem_str frequency x ;; Ok (- f, len x).

(** Line 38: rank the distinct tokens. *)
Definition sort_tokens (frequency : @Dict.t str Z) : result (list str) :=
  sorted (token_key frequency) (Dict.keys frequency).

(** [enumerate(l)] *)
Definition enumerate {A : Type} (l : list A) : list (Z * A) :=
  combine (map Z.of_nat (seq 0 (length l))) l.

(** Lines 41-45: give an identifier to the tokens worth replacing. *)
Definition build_word_dict (frequency : @Dict.t str Z) (sorted_tokens : list str)
  : result (@Dict.t str Z) :=
  for_each
    (fun word_dict '(i, token) =>
       f <- getitem_str frequency token ;;
       if (f >? 1) || (len token >? 3)
       then Ok (Dict.set str_eq_dec word_dict token (i + 1))
       else Ok word_dict)
    (enumerate sorted_tokens) [].

(** Lines 48-54: replace each token that has an identifier. *)
Definition build_data (word_dict : @Dict.t str Z) (tokens : list str)
  : result (list item) :=
  for_each
    (fun data_ids token =>
       if Dict.mem str_eq_dec word_dict token
       then i <- getitem_str word_dict token ;; Ok (data_ids ++ [Int i])
       else Ok (data_ids ++ [Str token]))
    tokens [].

(** Lines 41-61: the record, once the tokens are ranked. *)
Definition build_record (tokens : list str) (frequency : @Dict.t str Z)
    (sorted_tokens : list str) (original_extension : str) : result record :=
  word_dict <- build_word_dict frequency sorted_tokens ;;
  data_ids <- build_data word_dict tokens ;;
  Ok {| extension := Some original_extension;
        words := Some word_dict;
        data := Some data_ids |}.

(** Lines 30-61: from the text of the file and the suffix of its path to the
    record that is written. *)
Definition compress_file (text : str) (original_extension : str) : result record :=
  let tokens := re_split text in
  let frequency := count_frequency tokens in
  sorted_tokens <- sort_tokens frequency ;;
  build_record tokens frequency sorted_tokens original_extension.

(** ** [decompress_file] *)

(** [data["words"]] and [data["data"]] on the loaded object. *)
Definition getitem_field {A : Type} (field : option A) (name : String.string)
  : result A :=
  match field with
  | Some v => Ok v
  | None => Error (KeyError (Str (lit name)))
  end.

Arguments getitem_field {A} field name%_string.

(** [data.get(name, default)] on the loaded object. *)
Definition get_field {A : Type} (field : option A) (default : A) : A :=
  match field with
  | Some v => v
  | None => default
  end.

(** Line 102: [{v: k for k, v in words.items()}]. *)
Definition reverse_mapping (words : @Dict.t str Z) : @Dict.t Z str :=
  fold_left (fun id_to_word '(k, v) => Dict.set Z.eq_dec id_to_word v k)
    (Dict.items words) [].

(** Lines 105-112: resolve the entries of [data]. *)
Definition restore_tokens (id_to_word : @Dict.t Z str) (data_ids : list item)
  : result (list str) :=
  for_each
    (fun restored_tokens it =>
       match it with
       | Int i => w <- getitem_int id_to_word i ;; Ok (restored_tokens ++ [w])
       | Str s => Ok (restored_tokens ++ [s])
       end)
    data_ids [].

(** Lines 97-116: from the loaded object to the restored text and the
    extension of the output name. *)
Definition decompress_file (data_obj : record) : result (str * str) :=
  words <- getitem_field (words data_obj) "words" ;;
  data_ids <- getitem_field (data data_obj) "data" ;;
  let extension := get_field (extension data_obj) (lit ".txt") in
  let id_to_word := reverse_mapping words in
  restored_tokens <- restore_tokens id_to_word data_ids ;;
  let restored_text := join restored_tokens in
  Ok (restored_text, extension).

(** ** [get_unique_filename] *)

(** [f"{counter}"]: the decimal digits of an integer, with a minus sign
    before them when it is negative. *)
Definition format_int (i : Z) : str :=
  lit (DecimalString.NilZero.string_of_int (Z.to_int i)).

Section UniqueFilename.

(** What the function asks of [pathlib] and of the file system: whether the
    path exists, the stem and the suffix of its last component, and
    [str(path.parent / name)].  The file system does not change during a
    call. *)
Variable path_exists : str -> bool.
Variable path_stem : str -> str.
Variable path_suffix : str -> str.
Variable path_sibling : str -> str -> str.

(** Line 14: [f"{path.stem}_{counter}{path.suffix}"]. *)
Definition new_name (filepath : str) (counter : Z) : str :=
  path_stem filepath ++ lit "_" ++ format_int counter ++ path_suffix filepath.

(** Lines 13-18: the [while True] loop; [fuel] bounds the number of
    iterations, [None] means that the bound was reached. *)
Fixpoint unique_loop (fuel : nat) (filepath : str) (counter : Z) : option str :=
  match fuel with
  | O => None
  | S fuel' =>
      let new_path := path_sibling filepath (new_name filepath counter) in
      if negb (path_exists new_path) then Some new_path
      else unique_loop fuel' filepath (counter + 1)
  end.

(** Lines 6-18. *)
Definition get_unique_filename (fuel : nat) (filepath : str) : option str :=
  if negb (path_exists filepath) then Some filepath
  else unique_loop fuel filepath 1.

(** Line 82: the name of the record written by [compress_file]. *)
Definition compress_output_path (fuel : nat) (file_path : str) : option str :=
  get_unique_filename fuel (path_stem file_path ++ lit ".json").

(** Line 116: the name of the text written by [decompress_file]. *)
Definition decompress_output_path (fuel : nat) (json_path extension : str)
  : option str :=
  get_unique_filename fuel (path_stem json_path ++ extension).

End UniqueFilename.

(** ** The size check of [compress_file] (lines 63-80) *)

(** [s.encode("utf-8")], one code point at a time.  A surrogate (U+D800 to
    U+DFFF) cannot be encoded and raises [UnicodeEncodeError]; a [str] has
    no code point above U+10FFFF.  [None] stands for the exception. *)
Definition utf8_bytes (c : N) : option (list N) :=
  (if c <? 128 then Some [c]
   else if c <? 2048 then Some [192 + c / 64; 128 + c mod 64]
   else if c <? 65536 then
     if (55296 <=? c) && (c <=? 57343) then None
     else Some [224 + c / 4096; 128 + (c / 64) mod 64; 128 + c mod 64]
   else if c <? 1114112 then
     Some [240 + c / 262144; 128 + (c / 4096) mod 64;
           128 + (c / 64) mod 64; 128 + c mod 64]
   else None)%N.

Fixpoint utf8_encode (s : str) : option (list N) :=
  match s with
  | [] => Some []
  | c :: s' =>
      match utf8_bytes c, utf8_encode s' with
      | Some b, Some bs => Some (b ++ bs)
      | _, _ => None
      end
  end.

(** [sep.join(l)] *)
Fixpoint join_with (sep : str) (l : list str) : str :=
  match l with
  | [] => []
  | [x] => x
  | x :: l' => x ++ sep ++ join_with sep l'
  end.

(** [json.dumps(..., ensure_ascii=False, separators=(",", ":"))] on the
    values of the record.  In a string the quotation mark, the backslash and
    the control characters below U+0020 are escaped, the latter as [\b],
    [\f], [\n], [\r], [\t] or [\u00XX]; every other character is written
    as it is. *)
Definition hex_digit (n : N) : N := (if n <? 10 then 48 + n else 87 + n)%N.

Definition escape_char (c : N) : str :=
  (if c =? 34 then [92; 34]
   else if c =? 92 then [92; 92]
   else if c =? 8 then [92; 98]
   else if c =? 12 then [92; 102]
   else if c =? 10 then [92; 110]
   else if c =? 13 then [92; 114]
   else if c =? 9 then [92; 116]
   else if c <? 32 then [92; 117; 48; 48; hex_digit (c / 16); hex_digit (c mod 16)]
   else [c])%N.

Definition json_string (s : str) : str :=
  [34%N] ++ flat_map escape_char s ++ [34%N].

Definition json_item (it : item) : str :=
  match it with
  | Int i => format_int i
  | Str s => json_string s
  end.

Definition json_array (l : list item) : str :=
  lit "[" ++ join_with (lit ",") (map json_item l) ++ lit "]".

Definition json_words (w : @Dict.t str Z) : str :=
  lit "{"
  ++ join_with (lit ",")
       (map (fun kv => json_string (fst kv) ++ lit ":" ++ format_int (snd kv)) w)
  ++ lit "}".

Definition json_field {A : Type} (name : String.string) (dump : A -> str)
    (field : option A) : list str :=
  match field with
  | Some v => [json_string (lit name) ++ lit ":" ++ dump v]
  | None => []
  end.

Arguments json_field {A} name%_string dump field.

(** The fields that are present, in the order the record is built in. *)
Definition json_dumps (r : record) : str :=
  lit "{"
  ++ join_with (lit ",")
       (json_field "extension" json_string (extension r)
        ++ json_field "words" json_words (words r)
        ++ json_field "data" json_array (data r))
  ++ lit "}".

(** What lines 71-80 print: the warning, or the report of the space saved
    (its percentage, a float, is left out); each with the two sizes. *)
Inductive advisory : Type :=
| NotSmaller (compressed_size original_size : Z)
| Saved (original_size compressed_size : Z).

(** Lines 64-80.  [None]: one of the two [encode] calls raised. *)
Definition size_check (text : str) (compressed_data : record)
  : option advisory :=
  match utf8_encode text, utf8_encode (json_dumps compressed_data) with
  | Some original, Some compressed =>
      let original_size := Z.of_nat (length original) in
      let compressed_size := Z.of_nat (length compressed) in
      Some (if compressed_size >=? original_size
            then NotSmaller compressed_size original_size
            else Saved original_size compressed_size)
  | _, _ => None
  end.

(** * Vocabulary of the statements *)

Section SortSpec.
Context {A : Type}.

(** Keys do not decrease along the list. *)
Definition key_sorted (l : list (sort_key * A)) : Prop :=
  StronglySorted (fun x y => key_le (fst x) (fst y) = true) l.

(** The elements of [l] whose key is [k], in the order they have in [l]. *)
Definition with_key (k : sort_key) (l : list (sort_key * A))
  : list (sort_key * A) :=
  filter (fun x => key_eqb (fst x) k) l.

(** What Python promises of [sorted]: the keys do not decrease and elements
    with equal keys keep the order they had in the input. *)
Definition stable_sort_of (l l' : list (sort_key * A)) : Prop :=
  key_sorted l' /\ forall k, with_key k l' = with_key k l.

End SortSpec.

(** [l.index(x)]: the position of the first occurrence of [x], if any. *)
Fixpoint first_index (x : str) (l : list str) : option nat :=
  match l with
  | [] => None
  | y :: l' =>
      if str_eq_dec x y then Some 0%nat else option_map S (first_index x l')
  end.

(** [a] comes before [b] in [l]. *)
Definition before {A : Type} (a b : A) (l : list A) : Prop :=
  exists l1 l2 l3, l = l1 ++ a :: l2 ++ b :: l3.

(** The number of occurrences of a token in the token sequence. *)
Definition occurrences (tokens : list str) (t : str) : Z :=
  Z.of_nat (count_occ str_eq_dec tokens t).

(** The test of line 44 in terms of the token sequence. *)
Definition worth_replacing (tokens : list str) (t : str) : bool :=
  (occurrences tokens t >? 1) || (len t >? 3).

(** The key of a token and the ranked list of line 38, in terms of the
    token sequence. *)
Definition rank_key (tokens : list str) (x : str) : sort_key :=
  (- occurrences tokens x, len x).

Definition decorated_tokens (tokens : list str) : list (sort_key * str) :=
  map (fun x => (rank_key tokens x, x)) (Dict.keys (count_frequency tokens)).

Definition ranked_tokens (tokens : list str) : list str :=
  map snd (sort_decorated (decorated_tokens tokens)).

(** The identifiers of line 45: the token at position [i] of the ranked list
    is given [i + 1] when the test [q] holds of it; [n] is the position of
    the head of [l]. *)
Fixpoint assign_ids (q : str -> bool) (n : nat) (l : list str) : @Dict.t str Z :=
  match l with
  | [] => []
  | t :: l' =>
      (if q t then [(t, Z.of_nat n + 1)] else []) ++ assign_ids q (S n) l'
  end.

(** The entry of [data] for a token (lines 50-54). *)
Definition encode_token (word_dict : @Dict.t str Z) (token : str) : item :=
  match Dict.get str_eq_dec word_dict token with
  | Some i => Int i
  | None => Str token
  end.

(** The key that the reverse mapping of line 102 holds for [id]: the last
    key of [words], in the order of its items, whose value is [id]. *)
Fixpoint last_key_with (id : Z) (l : list (str * Z)) : option str :=
  match l with
  | [] => None
  | (k, v) :: l' =>
      match last_key_with id l' with
      | Some k' => Some k'
      | None => if Z.eq_dec v id then Some k else None
      end
  end.

(** The token an entry of [data] stands for, when it stands for one. *)
Definition resolve (words : @Dict.t str Z) (it : item) : option str :=
  match it with
  | Int i => last_key_with i words
  | Str s => Some s
  end.

(** A run of [compress_file] in which [sorted] is any sort that keeps its
    promise: keys in non-decreasing order, equal keys in input order. *)
Definition compress_run (text original_extension : str) (r : result record)
  : Prop :=
  let tokens := re_split text in
  let frequency := count_frequency tokens in
  match decorate (token_key frequency) (Dict.keys frequency) with
  | Error e => r = Error e
  | Ok decorated =>
      exists ranked,
        stable_sort_of decorated ranked
        /\ r = build_record tokens frequency (map snd ranked) original_extension
  end.

(** A token made of whitespace only, and one without any. *)
Definition all_space (t : str) : bool := forallb is_space t.

Definition no_space (t : str) : bool :=
  forallb (fun c => negb (is_space c)) t.

(** What may follow a piece without whitespace in a split text: nothing, or
    a non-empty whitespace run, a piece without whitespace and so on; a
    piece without whitespace is empty only when it is the last one. *)
Inductive tail_shape : list str -> Prop :=
| tail_nil : tail_shape []
| tail_cons (w t : str) (l : list str) :
    w <> [] -> all_space w = true -> no_space t = true ->
    (l <> [] -> t <> []) -> tail_shape l ->
    tail_shape (w :: t :: l).

(** A list of pieces that alternates between pieces without whitespace and
    non-empty whitespace runs, beginning and ending with the former. *)
Definition split_shape (l : list str) : Prop :=
  exists t l', l = t :: l' /\ no_space t = true /\ tail_shape l'.

(** The distinct elements of a list, each at the place of its first
    occurrence. *)
Fixpoint first_occurrences (l : list str) : list str :=
  match l with
  | [] => []
  | x :: l' =>
      x :: filter (fun y => if str_eq_dec y x then false else true)
             (first_occurrences l')
  end.

(** [sum(d.values())] *)
Definition sum_values {K : Type} (d : @Dict.t K Z) : Z :=
  fold_right Z.add 0 (Dict.values d).

(** A file system given by the list of the paths that exist. *)
Definition listed (files : list str) (p : str) : bool :=
  existsb (fun q => if str_eq_dec p q then true else false) files.

(** A text that can be encoded: every code point is a Unicode scalar
    value, as in any text read from a UTF-8 file. *)
Definition encodable (s : str) : bool :=
  forallb (fun c => ((c <? 55296) || (57343 <? c) && (c <? 1114112))%N) s.

(** The number of bytes of a code point, and of a text, in UTF-8. *)
Definition utf8_width (c : N) : nat :=
  if (c <? 128)%N then 1%nat
  else if (c <? 2048)%N then 2%nat
  else if (c <? 65536)%N then 3%nat
  else 4%nat.

Definition utf8_size (s : str) : nat :=
  fold_right (fun c n => (utf8_width c + n)%nat) 0%nat s.

(** * Properties *)

(** ** The error monad *)

Lemma bind_Ok_inv {A B : Type} (m : result A) (k : A -> result B) (b : B) :
  bind m k = Ok b -> exists a, m = Ok a /\ k a = Ok b.
Proof.
  destruct m as [a | e]; simpl; intros H.
  - exists a. split; [reflexivity | exact H].
  - discriminate H.
Qed.

Lemma for_each_app {A S : Type} (body : S -> A -> result S) (l1 l2 : list A) (s : S) :
  for_each body (l1 ++ l2) s = s' <- for_each body l1 s ;; for_each body l2 s'.
Proof.
  revert s. induction l1 as [| a l1 IH]; intros s; simpl.
  - reflexivity.
  - destruct (body s a) as [s' | e]; simpl; [apply IH | reflexivity].
Qed.

(** ** Dictionaries *)

Module DictFacts.
Section DictFacts.
Context {K V : Type}.
Variable eq_dec : forall x y : K, {x = y} + {x <> y}.

Local Abbreviation get := (Dict.get eq_dec).
Local Abbreviation set := (Dict.set eq_dec).
Local Abbreviation mem := (Dict.mem eq_dec).
Local Abbreviation keys := (@Dict.keys K V).
Local Abbreviation values := (@Dict.values K V).

Lemma get_set_same (d : Dict.t) (k : K) (v : V) : get (set d k v) k = Some v.
Proof.
  induction d as [| [k' v'] d IH]; simpl.
  - destruct (eq_dec k k); congruence.
  - destruct (eq_dec k k') as [E | NE]; simpl.
    + destruct (eq_dec k k'); congruence.
    + destruct (eq_dec k k'); congruence.
Qed.

Lemma get_set_other (d : Dict.t) (k k0 : K) (v : V) :
  k0 <> k -> get (set d k v) k0 = get d k0.
Proof.
  intros NE. induction d as [| [k' v'] d IH]; simpl.
  - destruct (eq_dec k0 k); congruence.
  - destruct (eq_dec k k') as [E | NE']; simpl.
    + subst k'. destruct (eq_dec k0 k); congruence.
    + destruct (eq_dec k0 k'); congruence.
Qed.

Lemma get_None_iff (d : Dict.t) (k : K) : get d k = None <-> ~ In k (keys d).
Proof.
  induction d as [| [k' v'] d IH]; simpl.
  - tauto.
  - destruct (eq_dec k k') as [E | NE].
    + split; [discriminate | intros H; exfalso; apply H; left; congruence].
    + rewrite IH. split; [intros H [E | I]; congruence | tauto].
Qed.

Lemma get_Some_In (d : Dict.t) (k : K) (v : V) : get d k = Some v -> In (k, v) d.
Proof.
  induction d as [| [k' v'] d IH]; simpl; [discriminate |].
  destruct (eq_dec k k') as [E | NE]; intros H.
  - left. congruence.
  - right. auto.
Qed.

Lemma In_get (d : Dict.t) (k : K) (v : V) :
  NoDup (keys d) -> In (k, v) d -> get d k = Some v.
Proof.
  induction d as [| [k' v'] d IH]; simpl; [tauto |].
  intros ND [E | I].
  - injection E as -> ->. destruct (eq_dec k k); congruence.
  - inversion ND as [| ? ? NI ND']; subst.
    destruct (eq_dec k k') as [E | NE]; [| auto].
    subst k'. exfalso. apply NI. apply (in_map fst) in I. exact I.
Qed.

Lemma mem_true_iff (d : Dict.t) (k : K) : mem d k = true <-> In k (keys d).
Proof.
  unfold Dict.mem. destruct (get d k) as [v |] eqn:G.
  - split; [intros _ | reflexivity].
    apply get_Some_In in G. apply (in_map fst) in G. exact G.
  - apply get_None_iff in G. split; [discriminate | tauto].
Qed.

Lemma set_new (d : Dict.t) (k : K) (v : V) :
  ~ In k (keys d) -> set d k v = d ++ [(k, v)].
Proof.
  induction d as [| [k' v'] d IH]; simpl; intros NI; [reflexivity |].
  destruct (eq_dec k k') as [E | NE]; [exfalso; auto |].
  rewrite IH by tauto. reflexivity.
Qed.

Lemma keys_set_old (d : Dict.t) (k : K) (v : V) :
  In k (keys d) -> keys (set d k v) = keys d.
Proof.
  induction d as [| [k' v'] d IH]; simpl; intros I; [tauto |].
  destruct (eq_dec k k') as [E | NE]; simpl; [reflexivity |].
  f_equal. apply IH. destruct I; congruence.
Qed.

Lemma keys_set (d : Dict.t) (k : K) (v : V) :
  keys (set d k v) = if mem d k then keys d else keys d ++ [k].
Proof.
  destruct (mem d k) eqn:M.
  - apply keys_set_old, mem_true_iff, M.
  - rewrite set_new.
    + unfold Dict.keys. rewrite map_app. reflexivity.
    + rewrite <- mem_true_iff. congruence.
Qed.
End DictFacts.
End DictFacts.

(** ** The tokenizer *)

Lemma split_scan_concat (in_ws : bool) (acc s : str) :
  join (split_scan in_ws acc s) = rev acc ++ s.
Proof.
  unfold join. revert in_ws acc.
  induction s as [| c s IH]; intros in_ws acc; simpl.
  - destruct in_ws; simpl; rewrite ?app_nil_r; reflexivity.
  - destruct (is_space c), in_ws; simpl; rewrite IH; simpl;
      rewrite <- ?app_assoc; reflexivity.
Qed.

(** Claim C8.  Joining the tokens that [re.split] returns gives back the
    text, whatever the text holds: nothing is trimmed, normalised or lost. *)
Theorem re_split_join (text : str) : join (re_split text) = text.
Proof.
  unfold re_split. rewrite split_scan_concat. reflexivity.
Qed.

Lemma join_tokens (text : str) : concat (re_split text) = text.
Proof. apply (split_scan_concat false [] text). Qed.

(** ** The frequency table *)

Lemma count_frequency_unfold (tokens : list str) :
  count_frequency tokens = fold_left frequency_step tokens [].
Proof. reflexivity. Qed.

Lemma frequency_step_get_default (d : @Dict.t str Z) (x t : str) :
  Dict.get_default str_eq_dec (frequency_step d x) t 0
  = Dict.get_default str_eq_dec d t 0 + Z.of_nat (count_occ str_eq_dec [x] t).
Proof.
  unfold frequency_step, Dict.get_default at 1. simpl.
  destruct (str_eq_dec x t) as [E | NE].
  - subst t. rewrite DictFacts.get_set_same. lia.
  - rewrite DictFacts.get_set_other by congruence.
    unfold Dict.get_default. simpl. lia.
Qed.

Lemma frequency_fold_get_default (l : list str) (d : @Dict.t str Z) (t : str) :
  Dict.get_default str_eq_dec (fold_left frequency_step l d) t 0
  = Dict.get_default str_eq_dec d t 0 + Z.of_nat (count_occ str_eq_dec l t).
Proof.
  revert d. induction l as [| x l IH]; intros d.
  - simpl. lia.
  - change (fold_left frequency_step (x :: l) d)
      with (fold_left frequency_step l (frequency_step d x)).
    rewrite IH, frequency_step_get_default.
    change (x :: l) with ([x] ++ l). rewrite count_occ_app. lia.
Qed.

Lemma frequency_step_keys (d : @Dict.t str Z) (x : str) :
  Dict.keys (frequency_step d x)
  = if Dict.mem str_eq_dec d x then Dict.keys d else Dict.keys d ++ [x].
Proof. apply DictFacts.keys_set. Qed.

Lemma frequency_fold_keys_In (l : list str) (d : @Dict.t str Z) (t : str) :
  In t (Dict.keys (fold_left frequency_step l d)) <-> In t (Dict.keys d) \/ In t l.
Proof.
  revert d. induction l as [| x l IH]; intros d; simpl.
  - tauto.
  - rewrite IH, frequency_step_keys.
    destruct (Dict.mem str_eq_dec d x) eqn:M.
    + apply DictFacts.mem_true_iff in M.
      split; [tauto | intros [H | [H | H]]; subst; tauto].
    + rewrite in_app_iff. simpl. tauto.
Qed.

Lemma frequency_fold_keys_NoDup (l : list str) (d : @Dict.t str Z) :
  NoDup (Dict.keys d) -> NoDup (Dict.keys (fold_left frequency_step l d)).
Proof.
  revert d. induction l as [| x l IH]; intros d ND; simpl; [exact ND |].
  apply IH. rewrite frequency_step_keys.
  destruct (Dict.mem str_eq_dec d x) eqn:M; [exact ND |].
  assert (NI : ~ In x (Dict.keys d)).
  { rewrite <- (DictFacts.mem_true_iff str_eq_dec). congruence. }
  apply NoDup_app; [exact ND | constructor; [simpl; tauto | constructor] |].
  intros a Ia [<- | []]. auto.
Qed.

Lemma frequency_fold_keys_extend (l : list str) (d : @Dict.t str Z) :
  exists more, Dict.keys (fold_left frequency_step l d) = Dict.keys d ++ more.
Proof.
  revert d. induction l as [| x l IH]; intros d; simpl.
  - exists []. rewrite app_nil_r. reflexivity.
  - destruct (IH (frequency_step d x)) as [more E]. rewrite E.
    rewrite frequency_step_keys.
    destruct (Dict.mem str_eq_dec d x).
    + exists more. reflexivity.
    + exists (x :: more). rewrite <- app_assoc. reflexivity.
Qed.

Lemma count_frequency_keys_In (tokens : list str) (t : str) :
  In t (Dict.keys (count_frequency tokens)) <-> In t tokens.
Proof.
  rewrite count_frequency_unfold, frequency_fold_keys_In. simpl. tauto.
Qed.

Lemma count_frequency_keys_NoDup (tokens : list str) :
  NoDup (Dict.keys (count_frequency tokens)).
Proof.
  rewrite count_frequency_unfold. apply frequency_fold_keys_NoDup. constructor.
Qed.

Lemma count_frequency_get (tokens : list str) (t : str) :
  In t tokens ->
  Dict.get str_eq_dec (count_frequency tokens) t
  = Some (Z.of_nat (count_occ str_eq_dec tokens t)).
Proof.
  intros I.
  pose proof (frequency_fold_get_default tokens [] t) as G.
  rewrite <- count_frequency_unfold in G.
  unfold Dict.get_default in G. simpl in G.
  destruct (Dict.get str_eq_dec (count_frequency tokens) t) as [v |] eqn:E.
  - f_equal. lia.
  - exfalso. apply DictFacts.get_None_iff in E. apply E.
    apply count_frequency_keys_In, I.
Qed.

(** ** The order of sort keys *)

Lemma key_le_refl (a : sort_key) : key_le a a = true.
Proof. unfold key_le. lia. Qed.

Lemma key_le_trans (a b c : sort_key) :
  key_le a b = true -> key_le b c = true -> key_le a c = true.
Proof. unfold key_le. lia. Qed.

Lemma key_le_total (a b : sort_key) : key_le a b = false -> key_le b a = true.
Proof. unfold key_le. lia. Qed.

Lemma key_le_antisym (a b : sort_key) :
  key_le a b = true -> key_le b a = true -> a = b.
Proof.
  destruct a as [a1 a2], b as [b1 b2]. unfold key_le. simpl.
  intros H1 H2. f_equal; lia.
Qed.

Lemma key_eqb_eq (a b : sort_key) : key_eqb a b = true <-> a = b.
Proof.
  destruct a as [a1 a2], b as [b1 b2]. unfold key_eqb. simpl. split.
  - intros H. f_equal; lia.
  - intros [= -> ->]. lia.
Qed.

Lemma key_eqb_refl (a : sort_key) : key_eqb a a = true.
Proof. apply key_eqb_eq. reflexivity. Qed.

(** ** Stable sorting *)

Section SortedFacts.
Context {A : Type}.

Lemma insert_sorted_perm (x : sort_key * A) (l : list (sort_key * A)) :
  Permutation (insert_sorted x l) (x :: l).
Proof.
  induction l as [| y l IH]; simpl.
  - apply Permutation_refl.
  - destruct (key_le (fst x) (fst y)).
    + apply Permutation_refl.
    + eapply Permutation_trans; [apply perm_skip, IH | apply perm_swap].
Qed.

Lemma sort_decorated_perm (l : list (sort_key * A)) :
  Permutation (sort_decorated l) l.
Proof.
  induction l as [| x l IH]; simpl.
  - apply Permutation_refl.
  - eapply Permutation_trans; [apply insert_sorted_perm | apply perm_skip, IH].
Qed.

Lemma insert_sorted_key_sorted (x : sort_key * A) (l : list (sort_key * A)) :
  key_sorted l -> key_sorted (insert_sorted x l).
Proof.
  unfold key_sorted. induction l as [| y l IH]; simpl; intros S.
  - constructor; constructor.
  - inversion S as [| ? ? S' F]; subst.
    destruct (key_le (fst x) (fst y)) eqn:L.
    + constructor; [exact S |]. constructor; [exact L |].
      eapply Forall_impl; [| exact F]. intros z Hz.
      eapply key_le_trans; eassumption.
    + constructor; [apply IH, S' |].
      apply (Permutation_Forall (Permutation_sym (insert_sorted_perm x l))).
      constructor; [apply key_le_total, L | exact F].
Qed.

Lemma sort_decorated_key_sorted (l : list (sort_key * A)) :
  key_sorted (sort_decorated l).
Proof.
  induction l as [| x l IH]; simpl.
  - constructor.
  - apply insert_sorted_key_sorted, IH.
Qed.

Lemma insert_sorted_with_key (k : sort_key) (x : sort_key * A)
    (l : list (sort_key * A)) :
  with_key k (insert_sorted x l) = with_key k (x :: l).
Proof.
  unfold with_key. induction l as [| y l IH]; simpl; [reflexivity |].
  destruct (key_le (fst x) (fst y)) eqn:L; simpl; [reflexivity |].
  rewrite IH. simpl.
  destruct (key_eqb (fst x) k) eqn:Ex, (key_eqb (fst y) k) eqn:Ey;
    try reflexivity.
  apply key_eqb_eq in Ex, Ey. rewrite Ex, Ey, key_le_refl in L. discriminate.
Qed.

Lemma sort_decorated_with_key (k : sort_key) (l : list (sort_key * A)) :
  with_key k (sort_decorated l) = with_key k l.
Proof.
  induction l as [| x l IH]; simpl; [reflexivity |].
  rewrite insert_sorted_with_key. unfold with_key in *. simpl.
  rewrite IH. reflexivity.
Qed.

Lemma sort_decorated_stable (l : list (sort_key * A)) :
  stable_sort_of l (sort_decorated l).
Proof.
  split; [apply sort_decorated_key_sorted | intros k; apply sort_decorated_with_key].
Qed.

Lemma with_key_head (x : sort_key * A) (l : list (sort_key * A)) :
  with_key (fst x) (x :: l) = x :: with_key (fst x) l.
Proof. unfold with_key. simpl. rewrite key_eqb_refl. reflexivity. Qed.

Lemma with_key_In (k : sort_key) (x : sort_key * A) (l : list (sort_key * A)) :
  In x (with_key k l) -> In x l.
Proof. unfold with_key. rewrite filter_In. tauto. Qed.

(** Two lists with non-decreasing keys that agree on the elements of every
    key are the same list: a stable sort has one possible result. *)
Lemma key_sorted_unique (l1 l2 : list (sort_key * A)) :
  key_sorted l1 -> key_sorted l2 ->
  (forall k, with_key k l1 = with_key k l2) -> l1 = l2.
Proof.
  unfold key_sorted. revert l2.
  induction l1 as [| x l1 IH]; intros [| y l2] S1 S2 W.
  - reflexivity.
  - specialize (W (fst y)). rewrite with_key_head in W. discriminate W.
  - specialize (W (fst x)). rewrite with_key_head in W. discriminate W.
  - inversion S1 as [| ? ? S1' F1]; inversion S2 as [| ? ? S2' F2]; subst.
    rewrite Forall_forall in F1, F2.
    assert (Ixy : In x (y :: l2)).
    { apply (with_key_In (fst x)). rewrite <- W, with_key_head. left. reflexivity. }
    assert (Iyx : In y (x :: l1)).
    { apply (with_key_In (fst y)). rewrite W, with_key_head. left. reflexivity. }
    assert (Lxy : key_le (fst x) (fst y) = true).
    { destruct Iyx as [<- | I]; [apply key_le_refl | apply F1, I]. }
    assert (Lyx : key_le (fst y) (fst x) = true).
    { destruct Ixy as [<- | I]; [apply key_le_refl | apply F2, I]. }
    assert (K : fst x = fst y) by (apply key_le_antisym; assumption).
    assert (E : x = y).
    { pose proof (W (fst x)) as Wx. rewrite with_key_head in Wx.
      rewrite K in Wx at 2. rewrite with_key_head in Wx. congruence. }
    subst y. f_equal. apply IH; [assumption | assumption |].
    intros k. specialize (W k). unfold with_key in *. simpl in W.
    destruct (key_eqb (fst x) k); congruence.
Qed.

Lemma stable_sort_unique (l l1 l2 : list (sort_key * A)) :
  stable_sort_of l l1 -> stable_sort_of l l2 -> l1 = l2.
Proof.
  intros [S1 W1] [S2 W2]. apply key_sorted_unique; [assumption | assumption |].
  intros k. rewrite W1, W2. reflexivity.
Qed.
End SortedFacts.

(** ** Ranking *)

Lemma decorate_from {A : Type} (key : A -> result sort_key) (kf : A -> sort_key)
    (l : list A) (acc : list (sort_key * A)) :
  (forall x, In x l -> key x = Ok (kf x)) ->
  for_each (fun acc x => k <- key x ;; Ok (acc ++ [(k, x)])) l acc
  = Ok (acc ++ map (fun x => (kf x, x)) l).
Proof.
  revert acc. induction l as [| x l IH]; intros acc H; simpl.
  - rewrite app_nil_r. reflexivity.
  - rewrite (H x) by (left; reflexivity). simpl.
    rewrite IH by (intros y Hy; apply H; right; exact Hy).
    rewrite <- app_assoc. reflexivity.
Qed.

Lemma token_key_ok (tokens : list str) (x : str) :
  In x tokens ->
  token_key (count_frequency tokens) x = Ok (rank_key tokens x).
Proof.
  intros I. unfold token_key, getitem_str.
  rewrite count_frequency_get by exact I. reflexivity.
Qed.

Lemma decorate_ok (tokens : list str) :
  decorate (token_key (count_frequency tokens))
    (Dict.keys (count_frequency tokens))
  = Ok (decorated_tokens tokens).
Proof.
  unfold decorate. rewrite (decorate_from _ (rank_key tokens)).
  - reflexivity.
  - intros x I. apply token_key_ok, count_frequency_keys_In, I.
Qed.

Lemma sort_tokens_ok (tokens : list str) :
  sort_tokens (count_frequency tokens) = Ok (ranked_tokens tokens).
Proof.
  unfold sort_tokens, sorted. rewrite decorate_ok. reflexivity.
Qed.

Lemma decorated_tokens_snd (tokens : list str) :
  map snd (decorated_tokens tokens) = Dict.keys (count_frequency tokens).
Proof.
  unfold decorated_tokens. rewrite map_map. simpl. apply map_id.
Qed.

Lemma ranked_tokens_perm (tokens : list str) :
  Permutation (ranked_tokens tokens) (Dict.keys (count_frequency tokens)).
Proof.
  unfold ranked_tokens. rewrite <- decorated_tokens_snd.
  apply Permutation_map, sort_decorated_perm.
Qed.

Lemma ranked_tokens_NoDup (tokens : list str) : NoDup (ranked_tokens tokens).
Proof.
  apply (Permutation_NoDup (Permutation_sym (ranked_tokens_perm tokens))).
  apply count_frequency_keys_NoDup.
Qed.

Lemma ranked_tokens_In (tokens : list str) (t : str) :
  In t (ranked_tokens tokens) <-> In t tokens.
Proof.
  rewrite <- (count_frequency_keys_In tokens t). split.
  - apply Permutation_in, ranked_tokens_perm.
  - apply Permutation_in, Permutation_sym, ranked_tokens_perm.
Qed.

(** ** The dictionary and the data list *)

Lemma build_word_dict_from (tokens l : list str) (n : nat) (wd : @Dict.t str Z) :
  NoDup l ->
  (forall x, In x l -> In x tokens) ->
  (forall x, In x l -> ~ In x (Dict.keys wd)) ->
  for_each
    (fun word_dict '(i, token) =>
       f <- getitem_str (count_frequency tokens) token ;;
       if (f >? 1) || (len token >? 3)
       then Ok (Dict.set str_eq_dec word_dict token (i + 1))
       else Ok word_dict)
    (combine (map Z.of_nat (seq n (length l))) l) wd
  = Ok (wd ++ assign_ids (worth_replacing tokens) n l).
Proof.
  revert n wd. induction l as [| t l IH]; intros n wd ND Sub Fresh; simpl.
  - rewrite app_nil_r. reflexivity.
  - inversion ND as [| ? ? NI ND']; subst.
    unfold getitem_str at 1.
    rewrite count_frequency_get by (apply Sub; left; reflexivity). simpl.
    unfold worth_replacing at 1. fold (occurrences tokens t).
    destruct ((occurrences tokens t >? 1) || (len t >? 3)).
    + rewrite DictFacts.set_new by (apply Fresh; left; reflexivity).
      cbn [bind]. rewrite IH.
      * rewrite <- app_assoc. reflexivity.
      * exact ND'.
      * intros x I. apply Sub. right. exact I.
      * intros x I. unfold Dict.keys. rewrite map_app, in_app_iff. simpl.
        intros [H | [H | []]].
        -- apply (Fresh x); [right; exact I | exact H].
        -- subst x. apply NI, I.
    + cbn [bind]. rewrite IH.
      * reflexivity.
      * exact ND'.
      * intros x I. apply Sub. right. exact I.
      * intros x I. apply Fresh. right. exact I.
Qed.

Lemma build_word_dict_ok (tokens : list str) :
  build_word_dict (count_frequency tokens) (ranked_tokens tokens)
  = Ok (assign_ids (worth_replacing tokens) 0 (ranked_tokens tokens)).
Proof.
  unfold build_word_dict, enumerate.
  rewrite (build_word_dict_from tokens).
  - reflexivity.
  - apply ranked_tokens_NoDup.
  - intros x. apply ranked_tokens_In.
  - intros x _ [].
Qed.

Lemma build_data_from (wd : @Dict.t str Z) (tokens : list str) (acc : list item) :
  for_each
    (fun data_ids token =>
       if Dict.mem str_eq_dec wd token
       then i <- getitem_str wd token ;; Ok (data_ids ++ [Int i])
       else Ok (data_ids ++ [Str token]))
    tokens acc
  = Ok (acc ++ map (encode_token wd) tokens).
Proof.
  revert acc. induction tokens as [| t tokens IH]; intros acc; simpl.
  - rewrite app_nil_r. reflexivity.
  - unfold Dict.mem, getitem_str, encode_token at 1.
    destruct (Dict.get str_eq_dec wd t) as [i |]; simpl;
      rewrite IH, <- app_assoc; reflexivity.
Qed.

Lemma build_data_ok (wd : @Dict.t str Z) (tokens : list str) :
  build_data wd tokens = Ok (map (encode_token wd) tokens).
Proof. unfold build_data. rewrite build_data_from. reflexivity. Qed.

(** [compress_file] raises no exception of its own, and its record has this
    closed form. *)
Lemma compress_ok (text ext : str) :
  let tokens := re_split text in
  let word_dict := assign_ids (worth_replacing tokens) 0 (ranked_tokens tokens) in
  compress_file text ext
  = Ok {| extension := Some ext;
          words := Some word_dict;
          data := Some (map (encode_token word_dict) tokens) |}.
Proof.
  intros tokens word_dict. unfold compress_file. fold tokens.
  rewrite sort_tokens_ok. simpl. unfold build_record.
  rewrite build_word_dict_ok. simpl. rewrite build_data_ok. reflexivity.
Qed.

(** ** Identifiers *)

Lemma assign_ids_keys (q : str -> bool) (n : nat) (l : list str) :
  Dict.keys (assign_ids q n l) = filter q l.
Proof.
  revert n. induction l as [| t l IH]; intros n; simpl; [reflexivity |].
  unfold Dict.keys in *. rewrite map_app, IH.
  destruct (q t); reflexivity.
Qed.

Lemma assign_ids_get (q : str -> bool) (n : nat) (l : list str) (t : str) :
  Dict.get str_eq_dec (assign_ids q n l) t
  = if q t
    then option_map (fun i => Z.of_nat (n + i) + 1) (first_index t l)
    else None.
Proof.
  revert n. induction l as [| x l IH]; intros n; simpl.
  - destruct (q t); reflexivity.
  - destruct (str_eq_dec t x) as [E | NE].
    + subst x. destruct (q t) eqn:Q; simpl.
      * destruct (str_eq_dec t t) as [_ | NE]; [| congruence].
        rewrite Nat.add_0_r. reflexivity.
      * apply IH.
    + assert (G : Dict.get str_eq_dec
                    ((if q x then [(x, Z.of_nat n + 1)] else [])
                     ++ assign_ids q (S n) l) t
                  = Dict.get str_eq_dec (assign_ids q (S n) l) t).
      { destruct (q x); simpl; [| reflexivity].
        destruct (str_eq_dec t x); congruence. }
      rewrite G, IH. destruct (q t); [| reflexivity].
      destruct (first_index t l) as [i |]; simpl; [| reflexivity].
      do 2 f_equal. lia.
Qed.

Lemma assign_ids_values_range (q : str -> bool) (n : nat) (l : list str) (v : Z) :
  In v (Dict.values (assign_ids q n l)) ->
  Z.of_nat n + 1 <= v <= Z.of_nat (n + length l).
Proof.
  revert n. induction l as [| t l IH]; intros n; simpl; [tauto |].
  unfold Dict.values in *. rewrite map_app, in_app_iff. intros [H | H].
  - destruct (q t); simpl in H; [| tauto]. destruct H as [<- | []]. lia.
  - apply IH in H. lia.
Qed.

Lemma assign_ids_values_NoDup (q : str -> bool) (n : nat) (l : list str) :
  NoDup (Dict.values (assign_ids q n l)).
Proof.
  revert n. induction l as [| t l IH]; intros n; simpl; [constructor |].
  destruct (q t); simpl; [| apply IH].
  constructor; [| apply IH].
  intros H. apply assign_ids_values_range in H. lia.
Qed.

(** ** The reverse mapping *)

Lemma reverse_mapping_from (l : list (str * Z)) (d : @Dict.t Z str) (id : Z) :
  Dict.get Z.eq_dec
    (fold_left (fun id_to_word '(k, v) => Dict.set Z.eq_dec id_to_word v k) l d)
    id
  = match last_key_with id l with
    | Some k => Some k
    | None => Dict.get Z.eq_dec d id
    end.
Proof.
  revert d. induction l as [| [k v] l IH]; intros d; simpl; [reflexivity |].
  rewrite IH. destruct (last_key_with id l) as [k' |]; [reflexivity |].
  destruct (Z.eq_dec v id) as [E | NE].
  - subst v. apply DictFacts.get_set_same.
  - apply DictFacts.get_set_other. congruence.
Qed.

(** [id_to_word.get(id)] is the last key of [words] that has the value [id]. *)
Lemma reverse_mapping_get (w : @Dict.t str Z) (id : Z) :
  Dict.get Z.eq_dec (reverse_mapping w) id = last_key_with id w.
Proof.
  unfold reverse_mapping, Dict.items. rewrite reverse_mapping_from. simpl.
  destruct (last_key_with id w); reflexivity.
Qed.

Lemma last_key_with_None_iff (id : Z) (l : list (str * Z)) :
  last_key_with id l = None <-> ~ In id (Dict.values l).
Proof.
  induction l as [| [k v] l IH]; simpl; [tauto |].
  destruct (last_key_with id l) as [k' |].
  - split; [discriminate |]. intros H. exfalso. apply H. right.
    destruct (in_dec Z.eq_dec id (Dict.values l)) as [I | NI]; [exact I |].
    apply IH in NI. discriminate NI.
  - destruct (Z.eq_dec v id) as [E | NE].
    + split; [discriminate | intros H; exfalso; apply H; left; exact E].
    + split; [| reflexivity]. intros _ [E | I]; [congruence |].
      apply (proj1 IH); [reflexivity | exact I].
Qed.

Lemma last_key_with_In (id : Z) (l : list (str * Z)) (k : str) :
  last_key_with id l = Some k -> In (k, id) l.
Proof.
  induction l as [| [k0 v] l IH]; simpl; [discriminate |].
  destruct (last_key_with id l) as [k' |].
  - intros [= ->]. right. apply IH. reflexivity.
  - destruct (Z.eq_dec v id) as [E | NE]; [| discriminate].
    intros [= ->]. left. congruence.
Qed.

Lemma last_key_with_unique (id : Z) (l : list (str * Z)) (k : str) :
  NoDup (Dict.values l) -> In (k, id) l -> last_key_with id l = Some k.
Proof.
  induction l as [| [k0 v] l IH]; simpl; [tauto |].
  intros ND I. inversion ND as [| ? ? NI ND']; subst.
  destruct I as [E | I].
  - injection E as -> ->.
    apply last_key_with_None_iff in NI. rewrite NI.
    destruct (Z.eq_dec id id); congruence.
  - rewrite (IH ND' I). reflexivity.
Qed.

(** ** Restoring the tokens *)

Lemma restore_tokens_from (w : @Dict.t str Z) (d : list item)
    (toks acc : list str) :
  Forall2 (fun it tok => resolve w it = Some tok) d toks ->
  for_each
    (fun restored_tokens it =>
       match it with
       | Int i =>
           w0 <- getitem_int (reverse_mapping w) i ;; Ok (restored_tokens ++ [w0])
       | Str s => Ok (restored_tokens ++ [s])
       end)
    d acc
  = Ok (acc ++ toks).
Proof.
  intros F. revert acc.
  induction F as [| it tok d toks R F IH]; intros acc; simpl.
  - rewrite app_nil_r. reflexivity.
  - destruct it as [i | s]; simpl in R.
    + unfold getitem_int. rewrite reverse_mapping_get, R. cbn [bind].
      rewrite IH, <- app_assoc. reflexivity.
    + injection R as ->. cbn [bind]. rewrite IH, <- app_assoc. reflexivity.
Qed.

Lemma restore_tokens_ok (w : @Dict.t str Z) (d : list item) (toks : list str) :
  Forall2 (fun it tok => resolve w it = Some tok) d toks ->
  restore_tokens (reverse_mapping w) d = Ok toks.
Proof.
  intros F. unfold restore_tokens. rewrite (restore_tokens_from w d toks); auto.
Qed.

Lemma restore_tokens_unknown_from (w : @Dict.t str Z) (d : list item)
    (acc : list str) :
  (exists i, In (Int i) d /\ ~ In i (Dict.values w)) ->
  exists j,
    In (Int j) d /\ ~ In j (Dict.values w)
    /\ for_each
         (fun restored_tokens it =>
            match it with
            | Int i =>
                w0 <- getitem_int (reverse_mapping w) i ;;
                Ok (restored_tokens ++ [w0])
            | Str s => Ok (restored_tokens ++ [s])
            end)
         d acc
       = Error (KeyError (Int j)).
Proof.
  revert acc. induction d as [| it d IH]; intros acc [i [I U]]; [destruct I |].
  assert (Rest : (exists i, In (Int i) d /\ ~ In i (Dict.values w))
                 \/ it = Int i).
  { destruct I as [E | I]; [right; exact E | left; exists i; auto]. }
  destruct it as [i0 | s]; simpl.
  - unfold getitem_int. rewrite reverse_mapping_get.
    destruct (last_key_with i0 w) as [k |] eqn:L.
    + cbn [bind]. destruct Rest as [Rest | E].
      * destruct (IH (acc ++ [k]) Rest) as [j [Ij [Uj Ej]]].
        exists j. split; [right; exact Ij | split; [exact Uj | exact Ej]].
      * injection E as ->. apply last_key_with_None_iff in U. congruence.
    + exists i0. split; [left; reflexivity |].
      split; [apply last_key_with_None_iff, L | reflexivity].
  - destruct Rest as [Rest | E]; [| discriminate E].
    destruct (IH (acc ++ [s]) Rest) as [j [Ij [Uj Ej]]].
    exists j. split; [right; exact Ij | split; [exact Uj | exact Ej]].
Qed.

Lemma resolve_all_dec (w : @Dict.t str Z) (d : list item) :
  (exists toks, Forall2 (fun it tok => resolve w it = Some tok) d toks)
  \/ (exists i, In (Int i) d /\ ~ In i (Dict.values w)).
Proof.
  induction d as [| it d IH].
  - left. exists []. constructor.
  - destruct IH as [[toks F] | [i [I U]]].
    + destruct (resolve w it) as [tok |] eqn:R.
      * left. exists (tok :: toks). constructor; assumption.
      * right. destruct it as [i | s]; [| discriminate R].
        exists i. split; [left; reflexivity |].
        apply last_key_with_None_iff, R.
    + right. exists i. split; [right; exact I | exact U].
Qed.

Lemma resolve_known (w : @Dict.t str Z) (d : list item) :
  (forall j, In (Int j) d -> In j (Dict.values w)) ->
  exists toks, Forall2 (fun it tok => resolve w it = Some tok) d toks.
Proof.
  intros Known. destruct (resolve_all_dec w d) as [F | [i [I U]]].
  - exact F.
  - exfalso. apply U, Known, I.
Qed.

Lemma decompress_resolved (e : option str) (w : @Dict.t str Z) (d : list item)
    (toks : list str) :
  Forall2 (fun it tok => resolve w it = Some tok) d toks ->
  decompress_file {| extension := e; words := Some w; data := Some d |}
  = Ok (join toks, get_field e (lit ".txt")).
Proof.
  intros F. unfold decompress_file. simpl.
  rewrite (restore_tokens_ok w d toks F). reflexivity.
Qed.

Lemma decompress_unknown (e : option str) (w : @Dict.t str Z) (d : list item) :
  (exists i, In (Int i) d /\ ~ In i (Dict.values w)) ->
  exists j,
    In (Int j) d /\ ~ In j (Dict.values w)
    /\ decompress_file {| extension := e; words := Some w; data := Some d |}
       = Error (KeyError (Int j)).
Proof.
  intros U. destruct (restore_tokens_unknown_from w d [] U) as [j [I [Uj E]]].
  exists j. split; [exact I | split; [exact Uj |]].
  unfold decompress_file, restore_tokens. simpl. rewrite E. reflexivity.
Qed.

Lemma encode_token_resolve (wd : @Dict.t str Z) (t : str) :
  NoDup (Dict.values wd) -> resolve wd (encode_token wd t) = Some t.
Proof.
  intros ND. unfold encode_token.
  destruct (Dict.get str_eq_dec wd t) as [i |] eqn:G; simpl; [| reflexivity].
  apply last_key_with_unique; [exact ND |].
  apply (DictFacts.get_Some_In str_eq_dec), G.
Qed.

Lemma encode_tokens_resolve (wd : @Dict.t str Z) (tokens : list str) :
  NoDup (Dict.values wd) ->
  Forall2 (fun it tok => resolve wd it = Some tok)
    (map (encode_token wd) tokens) tokens.
Proof.
  intros ND. induction tokens as [| t tokens IH]; simpl; constructor.
  - apply encode_token_resolve, ND.
  - exact IH.
Qed.

(** ** The round trip *)

(** Claim C1.  Round trip: for every text and every extension,
    [compress_file] produces a record, and [decompress_file] applied to that
    record restores exactly the text, with the extension it was given.  The
    empty text, whitespace only, a single character and texts of short
    tokens that occur once are instances. *)
Theorem round_trip (text ext : str) :
  exists r, compress_file text ext = Ok r /\ decompress_file r = Ok (text, ext).
Proof.
  eexists. split; [apply compress_ok |].
  rewrite (decompress_resolved _ _ _ (re_split text)).
  - unfold join. rewrite join_tokens. reflexivity.
  - apply encode_tokens_resolve, assign_ids_values_NoDup.
Qed.

(** ** The inclusion predicate *)

Lemma worth_replacing_iff (tokens : list str) (t : str) :
  worth_replacing tokens t = true <-> occurrences tokens t > 1 \/ len t > 3.
Proof. unfold worth_replacing. lia. Qed.

Lemma word_dict_keys_iff (tokens : list str) (t : str) :
  In t (Dict.keys (assign_ids (worth_replacing tokens) 0 (ranked_tokens tokens)))
  <-> In t tokens /\ (occurrences tokens t > 1 \/ len t > 3).
Proof.
  rewrite assign_ids_keys, filter_In, ranked_tokens_In, worth_replacing_iff.
  reflexivity.
Qed.

(** Claim C3.  Inclusion predicate: in the record of any text, a token of
    the text is a key of [words] exactly when it occurs more than once or is
    longer than three characters ([words] has no other keys), and at every
    position of a token that meets neither condition [data] holds the token
    itself, not an identifier. *)
Theorem inclusion_predicate (text ext : str) :
  exists w d,
    compress_file text ext
    = Ok {| extension := Some ext; words := Some w; data := Some d |}
    /\ (forall t, In t (Dict.keys w) -> In t (re_split text))
    /\ (forall t, In t (re_split text) ->
          (In t (Dict.keys w)
           <-> occurrences (re_split text) t > 1 \/ len t > 3))
    /\ length d = length (re_split text)
    /\ (forall i t, nth_error (re_split text) i = Some t ->
          ~ (occurrences (re_split text) t > 1 \/ len t > 3) ->
          nth_error d i = Some (Str t)).
Proof.
  do 2 eexists. split; [apply compress_ok |].
  set (tokens := re_split text).
  split; [| split; [| split]].
  - intros t I. apply word_dict_keys_iff in I. apply I.
  - intros t I. rewrite word_dict_keys_iff. tauto.
  - apply length_map.
  - intros i t N Q. rewrite nth_error_map, N. simpl. f_equal.
    unfold encode_token. rewrite assign_ids_get.
    destruct (worth_replacing tokens t) eqn:W; [| reflexivity].
    apply worth_replacing_iff in W. contradiction.
Qed.

(** ** Range of the identifiers *)

Lemma ranked_tokens_length (tokens : list str) :
  length (ranked_tokens tokens) = length (nodup str_eq_dec tokens).
Proof.
  apply Permutation_length, NoDup_Permutation.
  - apply ranked_tokens_NoDup.
  - apply NoDup_nodup.
  - intros t. rewrite ranked_tokens_In, nodup_In. reflexivity.
Qed.

(** Claim C6.  Identifier uniqueness and range: in the record of any text
    the values of [words] are pairwise distinct, and each lies between 1 and
    the number of distinct tokens of the text. *)
Theorem identifiers_distinct_in_range (text ext : str) :
  exists w d,
    compress_file text ext
    = Ok {| extension := Some ext; words := Some w; data := Some d |}
    /\ NoDup (Dict.values w)
    /\ (forall id, In id (Dict.values w) ->
          1 <= id <= Z.of_nat (length (nodup str_eq_dec (re_split text)))).
Proof.
  do 2 eexists. split; [apply compress_ok |]. split.
  - apply assign_ids_values_NoDup.
  - intros id I. apply assign_ids_values_range in I.
    rewrite ranked_tokens_length in I. simpl in I. lia.
Qed.

(** ** Records that [compress_file] does not write *)

(** Claim C5.  Unknown identifier: when [data] holds an integer that is not
    a value of [words], [decompress_file] ends in the exception raised by the
    failed lookup of such an integer and restores no text, not even a part
    of it. *)
Theorem unknown_identifier_rejected (r : record) (w : @Dict.t str Z)
    (d : list item) (i : Z) :
  words r = Some w -> data r = Some d ->
  In (Int i) d -> ~ In i (Dict.values w) ->
  exists j,
    In (Int j) d /\ ~ In j (Dict.values w)
    /\ decompress_file r = Error (KeyError (Int j)).
Proof.
  intros Hw Hd I U. destruct r as [e w0 d0]. simpl in Hw, Hd. subst w0 d0.
  apply decompress_unknown. exists i. split; assumption.
Qed.

Lemma unknown_identifier_rejected_witness :
  exists j,
    In (Int j) [Str (lit "a"); Int 7] /\ ~ In j (Dict.values [(lit "b", 1)])
    /\ decompress_file {| extension := Some (lit ".txt");
                     words := Some [(lit "b", 1)];
                     data := Some [Str (lit "a"); Int 7] |}
       = Error (KeyError (Int j)).
Proof.
  apply (unknown_identifier_rejected _ [(lit "b", 1)] [Str (lit "a"); Int 7] 7).
  - reflexivity.
  - reflexivity.
  - simpl. right. left. reflexivity.
  - simpl. intros [H | []]. discriminate H.
Defined.

(** Claim C10.  A record that has [words] and [data] but no [extension] is
    decoded as the same record with the extension [".txt"]: the missing
    field raises nothing, the text is restored from [words] and [data]
    whenever the entries of [data] resolve, and the only failure left is an
    identifier of [data] that [words] does not have. *)
Theorem missing_extension_defaults (r : record) (w : @Dict.t str Z)
    (d : list item) :
  words r = Some w -> data r = Some d -> extension r = None ->
  decompress_file r
  = decompress_file {| extension := Some (lit ".txt"); words := Some w; data := Some d |}
  /\ (forall toks,
        Forall2 (fun it tok => resolve w it = Some tok) d toks ->
        decompress_file r = Ok (join toks, lit ".txt"))
  /\ (forall e, decompress_file r = Error e ->
        exists j, e = KeyError (Int j) /\ In (Int j) d /\ ~ In j (Dict.values w)).
Proof.
  intros Hw Hd He. destruct r as [e0 w0 d0]. simpl in Hw, Hd, He. subst.
  split; [reflexivity |]. split.
  - intros toks F. rewrite (decompress_resolved _ _ _ toks F). reflexivity.
  - intros e E. destruct (resolve_all_dec w d) as [[toks F] | U].
    + rewrite (decompress_resolved _ _ _ toks F) in E. discriminate E.
    + destruct (decompress_unknown None w d U) as [j [I [Uj Ej]]].
      exists j. split; [congruence | split; assumption].
Qed.

Lemma missing_extension_defaults_witness :
  decompress_file {| extension := None;
                words := Some [(lit "ab", 1)];
                data := Some [Int 1; Str (lit " "); Int 1] |}
  = decompress_file {| extension := Some (lit ".txt");
                  words := Some [(lit "ab", 1)];
                  data := Some [Int 1; Str (lit " "); Int 1] |}
  /\ (forall toks,
        Forall2 (fun it tok => resolve [(lit "ab", 1)] it = Some tok)
          [Int 1; Str (lit " "); Int 1] toks ->
        decompress_file {| extension := None;
                      words := Some [(lit "ab", 1)];
                      data := Some [Int 1; Str (lit " "); Int 1] |}
        = Ok (join toks, lit ".txt"))
  /\ (forall e,
        decompress_file {| extension := None;
                      words := Some [(lit "ab", 1)];
                      data := Some [Int 1; Str (lit " "); Int 1] |}
        = Error e ->
        exists j, e = KeyError (Int j)
                  /\ In (Int j) [Int 1; Str (lit " "); Int 1]
                  /\ ~ In j (Dict.values [(lit "ab", 1)])).
Proof.
  apply (missing_extension_defaults
           {| extension := None;
              words := Some [(lit "ab", 1)];
              data := Some [Int 1; Str (lit " "); Int 1] |}
           [(lit "ab", 1)] [Int 1; Str (lit " "); Int 1]); reflexivity.
Defined.

(** ** A worked text *)

(** Claim C2, as the program has it.  For the text
    ["the cat sat on the mat the cat ran"] the single space, which occurs
    eight times, is ranked first: [words] is [{" ": 1, "the": 2, "cat": 3}],
    [data] holds these identifiers at the positions of the three tokens and
    the words "sat", "on", "mat" and "ran" as literals, and decoding the
    record restores the text. *)
Theorem concrete_scenario (ext : str) :
  compress_file (lit "the cat sat on the mat the cat ran") ext
  = Ok {| extension := Some ext;
          words := Some [(lit " ", 1); (lit "the", 2); (lit "cat", 3)];
          data := Some [Int 2; Int 1; Int 3; Int 1; Str (lit "sat"); Int 1;
                        Str (lit "on"); Int 1; Int 2; Int 1; Str (lit "mat");
                        Int 1; Int 2; Int 1; Int 3; Int 1; Str (lit "ran")] |}
  /\ decompress_file
       {| extension := Some ext;
          words := Some [(lit " ", 1); (lit "the", 2); (lit "cat", 3)];
          data := Some [Int 2; Int 1; Int 3; Int 1; Str (lit "sat"); Int 1;
                        Str (lit "on"); Int 1; Int 2; Int 1; Str (lit "mat");
                        Int 1; Int 2; Int 1; Int 3; Int 1; Str (lit "ran")] |}
     = Ok (lit "the cat sat on the mat the cat ran", ext).
Proof. split; vm_compute; reflexivity. Qed.

(** Claim C2, as stated, fails: the [words] of that text is not the mapping
    [{"the": 1, "cat": 2}]; it has the key [" "], and "the" has identifier 2. *)
Lemma concrete_scenario_counterexample :
  ~ exists r w,
      compress_file (lit "the cat sat on the mat the cat ran") (lit ".txt") = Ok r
      /\ words r = Some w
      /\ forall k, Dict.get str_eq_dec w k
                   = Dict.get str_eq_dec [(lit "the", 1); (lit "cat", 2)] k.
Proof.
  intros [r [w [C [W G]]]].
  vm_compute in C. injection C as <-. simpl in W. injection W as <-.
  specialize (G (lit " ")). vm_compute in G. discriminate G.
Qed.

(** ** Identifiers given twice *)

Lemma last_key_with_app (id : Z) (l1 l2 : list (str * Z)) :
  last_key_with id (l1 ++ l2)
  = match last_key_with id l2 with
    | Some k => Some k
    | None => last_key_with id l1
    end.
Proof.
  induction l1 as [| [k v] l1 IH]; simpl.
  - destruct (last_key_with id l2); reflexivity.
  - rewrite IH. destruct (last_key_with id l2); reflexivity.
Qed.

(** Claim C4, as the program has it.  [decompress_file] does not check that
    the identifiers of [words] are distinct.  When two keys [k1] and [k2]
    have the same identifier [i] and [k2] is the last key of [words] with
    that identifier, decoding succeeds as soon as every identifier in [data]
    is a value of [words]; each identifier is restored as a key that has it
    in [words], the identifier [i] as [k2], and each literal as itself. *)
Theorem duplicate_identifier_last_key_wins (e : option str)
    (w1 w2 w3 : list (str * Z)) (k1 k2 : str) (i : Z) (d : list item) :
  k1 <> k2 ->
  ~ In i (Dict.values w3) ->
  (forall j, In (Int j) d ->
     In j (Dict.values (w1 ++ (k1, i) :: w2 ++ (k2, i) :: w3))) ->
  exists toks,
    decompress_file {| extension := e;
                  words := Some (w1 ++ (k1, i) :: w2 ++ (k2, i) :: w3);
                  data := Some d |}
    = Ok (join toks, get_field e (lit ".txt"))
    /\ Forall2
         (fun it tok =>
            match it with
            | Int j =>
                In (tok, j) (w1 ++ (k1, i) :: w2 ++ (k2, i) :: w3)
                /\ (j = i -> tok = k2)
            | Str s => tok = s
            end)
         d toks.
Proof.
  intros _ Last Known.
  set (w := w1 ++ (k1, i) :: w2 ++ (k2, i) :: w3) in *.
  destruct (resolve_known w d Known) as [toks F].
  exists toks. split; [apply decompress_resolved, F |].
  assert (Li : last_key_with i w = Some k2).
  { unfold w. rewrite last_key_with_app. simpl. rewrite last_key_with_app. simpl.
    apply last_key_with_None_iff in Last. rewrite Last.
    destruct (Z.eq_dec i i); congruence. }
  induction F as [| it tok d toks R F IH]; constructor.
  - destruct it as [j | s]; simpl in R.
    + split; [apply last_key_with_In, R |]. intros ->. congruence.
    + congruence.
  - apply IH. intros j I. apply Known. right. exact I.
Qed.

Lemma duplicate_identifier_last_key_wins_witness :
  exists toks,
    decompress_file {| extension := Some (lit ".md");
                  words := Some ([] ++ (lit "a", 1) :: [] ++ (lit "b", 1) :: []);
                  data := Some [Int 1; Str (lit " "); Int 1] |}
    = Ok (join toks, get_field (Some (lit ".md")) (lit ".txt"))
    /\ Forall2
         (fun it tok =>
            match it with
            | Int j =>
                In (tok, j) ([] ++ (lit "a", 1) :: [] ++ (lit "b", 1) :: [])
                /\ (j = 1 -> tok = lit "b")
            | Str s => tok = s
            end)
         [Int 1; Str (lit " "); Int 1] toks.
Proof.
  apply (duplicate_identifier_last_key_wins (Some (lit ".md")) [] [] []
           (lit "a") (lit "b") 1 [Int 1; Str (lit " "); Int 1]).
  - discriminate.
  - simpl. tauto.
  - simpl. intros j [H | [H | [H | []]]]; try discriminate H;
      injection H as <-; left; reflexivity.
Defined.

(** Claim C4, as stated, fails: a record whose [words] gives the identifier
    1 to both "a" and "b" is decoded without any error, the identifier
    standing for "b". *)
Lemma duplicate_identifier_counterexample :
  decompress_file {| extension := Some (lit ".txt");
                words := Some [(lit "a", 1); (lit "b", 1)];
                data := Some [Int 1] |}
  = Ok (lit "b", lit ".txt")
  /\ ~ exists e,
         decompress_file {| extension := Some (lit ".txt");
                       words := Some [(lit "a", 1); (lit "b", 1)];
                       data := Some [Int 1] |}
         = Error e.
Proof.
  split; [reflexivity |]. intros [e E]. discriminate E.
Qed.

(** ** Relative order *)

Section Before.
Context {A : Type}.

Lemma before_cons (x a b : A) (l : list A) : before a b l -> before a b (x :: l).
Proof.
  intros [l1 [l2 [l3 E]]]. exists (x :: l1), l2, l3. rewrite E. reflexivity.
Qed.

Lemma before_head (a b : A) (l : list A) : In b l -> before a b (a :: l).
Proof.
  intros I. destruct (in_split _ _ I) as [m1 [m2 E]].
  exists [], m1, m2. rewrite E. reflexivity.
Qed.

Lemma before_app_l (a b : A) (l0 l : list A) : before a b l -> before a b (l0 ++ l).
Proof.
  intros B. induction l0 as [| x l0 IH]; simpl; [exact B | apply before_cons, IH].
Qed.

Lemma before_inv (x a b : A) (l : list A) :
  before a b (x :: l) -> (x = a /\ In b l) \/ before a b l.
Proof.
  intros [[| y l1] [l2 [l3 E]]]; simpl in E; injection E as E1 E2.
  - left. split; [exact E1 |]. rewrite E2, in_app_iff. right. left. reflexivity.
  - right. exists l1, l2, l3. exact E2.
Qed.

Lemma before_map {B : Type} (f : A -> B) (a b : A) (l : list A) :
  before a b l -> before (f a) (f b) (map f l).
Proof.
  intros [l1 [l2 [l3 E]]]. exists (map f l1), (map f l2), (map f l3).
  rewrite E, map_app. simpl. rewrite map_app. reflexivity.
Qed.

Lemma before_filter (p : A -> bool) (a b : A) (l : list A) :
  p a = true -> p b = true -> before a b l -> before a b (filter p l).
Proof.
  intros Pa Pb [l1 [l2 [l3 E]]].
  exists (filter p l1), (filter p l2), (filter p l3).
  rewrite E, filter_app. simpl. rewrite Pa, filter_app. simpl. rewrite Pb.
  reflexivity.
Qed.

Lemma before_filter_inv (p : A -> bool) (a b : A) (l : list A) :
  before a b (filter p l) -> before a b l.
Proof.
  induction l as [| x l IH]; simpl; intros B.
  - destruct B as [[| ? ?] [? [? E]]]; discriminate E.
  - destruct (p x).
    + apply before_inv in B. destruct B as [[-> I] | B].
      * apply before_head. apply filter_In in I. apply I.
      * apply before_cons, IH, B.
    + apply before_cons, IH, B.
Qed.
End Before.

Lemma first_index_In (x : str) (l : list str) (i : nat) :
  first_index x l = Some i -> In x l.
Proof.
  revert i. induction l as [| y l IH]; intros i; simpl; [discriminate |].
  destruct (str_eq_dec x y) as [E | NE]; [left; congruence |].
  destruct (first_index x l) as [j |]; [| discriminate].
  intros _. right. apply (IH j). reflexivity.
Qed.

Lemma first_index_fresh (x : str) (l1 l2 : list str) :
  ~ In x l1 -> first_index x (l1 ++ x :: l2) = Some (length l1).
Proof.
  induction l1 as [| y l1 IH]; simpl; intros NI.
  - destruct (str_eq_dec x x); congruence.
  - destruct (str_eq_dec x y) as [E | NE]; [exfalso; apply NI; left; congruence |].
    rewrite IH by tauto. reflexivity.
Qed.

Lemma before_first_index (a b : str) (l : list str) :
  NoDup l -> before a b l ->
  exists ra rb,
    first_index a l = Some ra /\ first_index b l = Some rb /\ (ra < rb)%nat.
Proof.
  intros ND [l1 [l2 [l3 E]]]. subst l.
  exists (length l1), (length (l1 ++ a :: l2)).
  split; [| split].
  - apply first_index_fresh. apply NoDup_remove_2 in ND.
    rewrite in_app_iff in *. tauto.
  - change (l1 ++ a :: l2 ++ b :: l3) with (l1 ++ (a :: l2) ++ b :: l3).
    rewrite app_assoc. apply first_index_fresh.
    change (l1 ++ a :: l2 ++ b :: l3) with (l1 ++ (a :: l2) ++ b :: l3) in ND.
    rewrite app_assoc in ND. apply NoDup_remove_2 in ND.
    rewrite in_app_iff in ND. tauto.
  - rewrite length_app. simpl. lia.
Qed.

(** The keys of the frequency table are in the order of first occurrence. *)
Lemma frequency_fold_keys_before (l : list str) (d : @Dict.t str Z)
    (a b : str) (ia ib : nat) :
  first_index a l = Some ia -> first_index b l = Some ib -> (ia < ib)%nat ->
  ~ In a (Dict.keys d) -> ~ In b (Dict.keys d) ->
  before a b (Dict.keys (fold_left frequency_step l d)).
Proof.
  revert d ia ib. induction l as [| x l IH]; intros d ia ib; simpl;
    [discriminate |].
  destruct (str_eq_dec a x) as [Ea | Na], (str_eq_dec b x) as [Eb | Nb].
  - intros [= <-] [= <-]. lia.
  - subst x. intros _ Fb _ Fa Fd.
    destruct (first_index b l) as [jb |] eqn:Ib; [| discriminate Fb].
    apply first_index_In in Ib.
    destruct (frequency_fold_keys_extend l (frequency_step d a)) as [more E].
    assert (Ik : In b (Dict.keys (fold_left frequency_step l (frequency_step d a)))).
    { apply frequency_fold_keys_In. right. exact Ib. }
    rewrite E in *. rewrite frequency_step_keys in *.
    assert (M : Dict.mem str_eq_dec d a = false).
    { destruct (Dict.mem str_eq_dec d a) eqn:M; [| reflexivity].
      apply DictFacts.mem_true_iff in M. contradiction. }
    rewrite M in *. rewrite <- app_assoc. apply before_app_l. simpl.
    apply before_head. rewrite !in_app_iff in Ik. simpl in Ik.
    destruct Ik as [[Ik | [Ik | []]] | Ik]; [contradiction | congruence | exact Ik].
  - intros _ [= <-]. lia.
  - intros Fa Fb.
    destruct (first_index a l) as [ja |] eqn:Ia; [| discriminate Fa].
    destruct (first_index b l) as [jb |] eqn:Ib; [| discriminate Fb].
    simpl in Fa, Fb. injection Fa as <-. injection Fb as <-.
    intros Lt Fda Fdb. apply (IH _ ja jb); [reflexivity | reflexivity | lia | |];
      rewrite frequency_step_keys; destruct (Dict.mem str_eq_dec d x);
      rewrite ?in_app_iff; simpl; intuition congruence.
Qed.

Lemma count_frequency_keys_before (tokens : list str) (a b : str) (ia ib : nat) :
  first_index a tokens = Some ia -> first_index b tokens = Some ib ->
  (ia < ib)%nat ->
  before a b (Dict.keys (count_frequency tokens)).
Proof.
  intros Fa Fb Lt. rewrite count_frequency_unfold.
  apply (frequency_fold_keys_before tokens [] a b ia ib); auto.
Qed.

(** Tokens with the same key leave the sort in the order they entered it. *)
Lemma ranked_tokens_before (tokens : list str) (a b : str) :
  rank_key tokens a = rank_key tokens b ->
  before a b (Dict.keys (count_frequency tokens)) ->
  before a b (ranked_tokens tokens).
Proof.
  intros K B.
  assert (H : before (rank_key tokens a, a) (rank_key tokens b, b)
                (sort_decorated (decorated_tokens tokens))).
  { apply (before_filter_inv (fun x => key_eqb (fst x) (rank_key tokens a))).
    fold (with_key (rank_key tokens a) (sort_decorated (decorated_tokens tokens))).
    rewrite sort_decorated_with_key. unfold with_key.
    apply before_filter.
    - apply key_eqb_refl.
    - simpl. rewrite K. apply key_eqb_refl.
    - unfold decorated_tokens.
      apply (before_map (fun x => (rank_key tokens x, x))), B. }
  exact (before_map snd _ _ _ H).
Qed.

(** Claim C9.  Ties go to the first occurrence: when two tokens occur
    equally often and have the same length, the one that occurs first in the
    text is ranked before the other by line 38, and when both are keys of
    [words] their identifiers, one more than their ranks, are in that order. *)
Theorem tie_break_first_occurrence (text ext a b : str) (ia ib : nat) :
  first_index a (re_split text) = Some ia ->
  first_index b (re_split text) = Some ib ->
  (ia < ib)%nat ->
  occurrences (re_split text) a = occurrences (re_split text) b ->
  len a = len b ->
  exists sorted_tokens ra rb w d,
    sort_tokens (count_frequency (re_split text)) = Ok sorted_tokens
    /\ first_index a sorted_tokens = Some ra
    /\ first_index b sorted_tokens = Some rb
    /\ (ra < rb)%nat
    /\ compress_file text ext
       = Ok {| extension := Some ext; words := Some w; data := Some d |}
    /\ (forall ida idb,
          Dict.get str_eq_dec w a = Some ida ->
          Dict.get str_eq_dec w b = Some idb ->
          ida = Z.of_nat ra + 1 /\ idb = Z.of_nat rb + 1 /\ ida < idb).
Proof.
  intros Fa Fb Lt Occ Len.
  set (tokens := re_split text) in *.
  assert (B : before a b (ranked_tokens tokens)).
  { apply ranked_tokens_before.
    - unfold rank_key. congruence.
    - apply (count_frequency_keys_before tokens a b ia ib); assumption. }
  destruct (before_first_index a b _ (ranked_tokens_NoDup tokens) B)
    as [ra [rb [Ra [Rb Lr]]]].
  exists (ranked_tokens tokens), ra, rb. do 2 eexists.
  split; [apply sort_tokens_ok |].
  split; [exact Ra |]. split; [exact Rb |]. split; [exact Lr |].
  split; [apply compress_ok |]. fold tokens.
  intros ida idb Ga Gb. rewrite assign_ids_get in Ga, Gb.
  rewrite Ra in Ga. rewrite Rb in Gb.
  destruct (worth_replacing tokens a); [| discriminate Ga].
  destruct (worth_replacing tokens b); [| discriminate Gb].
  simpl in Ga, Gb. injection Ga as <-. injection Gb as <-. lia.
Qed.

Lemma tie_break_first_occurrence_witness :
  exists sorted_tokens ra rb w d,
    sort_tokens (count_frequency (re_split (lit "bb aa bb aa c")))
    = Ok sorted_tokens
    /\ first_index (lit "bb") sorted_tokens = Some ra
    /\ first_index (lit "aa") sorted_tokens = Some rb
    /\ (ra < rb)%nat
    /\ compress_file (lit "bb aa bb aa c") (lit ".txt")
       = Ok {| extension := Some (lit ".txt"); words := Some w; data := Some d |}
    /\ (forall ida idb,
          Dict.get str_eq_dec w (lit "bb") = Some ida ->
          Dict.get str_eq_dec w (lit "aa") = Some idb ->
          ida = Z.of_nat ra + 1 /\ idb = Z.of_nat rb + 1 /\ ida < idb).
Proof.
  apply (tie_break_first_occurrence (lit "bb aa bb aa c") (lit ".txt")
           (lit "bb") (lit "aa") 0 2).
  - reflexivity.
  - reflexivity.
  - lia.
  - reflexivity.
  - reflexivity.
Defined.

(** ** Runs of [compress_file] *)

Lemma compress_is_run (text ext : str) :
  compress_run text ext (compress_file text ext).
Proof.
  unfold compress_run. rewrite decorate_ok.
  exists (sort_decorated (decorated_tokens (re_split text))).
  split; [apply sort_decorated_stable |].
  unfold compress_file. rewrite sort_tokens_ok. reflexivity.
Qed.

Lemma compress_run_unique (text ext : str) (r : result record) :
  compress_run text ext r -> r = compress_file text ext.
Proof.
  unfold compress_run. rewrite decorate_ok. intros [ranked [S E]].
  rewrite (stable_sort_unique _ _ _ S
             (sort_decorated_stable (decorated_tokens (re_split text)))) in E.
  rewrite E. unfold compress_file. rewrite sort_tokens_ok. reflexivity.
Qed.

(** Claim C7.  Determinism: the record depends on the text and the extension
    alone.  Whatever sort [sorted] is, as long as it orders by the key and
    keeps equal keys in input order, any two runs on the same input end in
    the same result, which is a record, the one [compress_file] computes: same
    [words], same identifiers, same [data]. *)
Theorem compress_deterministic (text ext : str) (r1 r2 : result record) :
  compress_run text ext r1 -> compress_run text ext r2 ->
  r1 = r2 /\ r1 = compress_file text ext /\ exists rec, r1 = Ok rec.
Proof.
  intros R1 R2. apply compress_run_unique in R1, R2. subst r1 r2.
  split; [reflexivity |]. split; [reflexivity |].
  eexists. apply compress_ok.
Qed.

Lemma compress_deterministic_witness :
  Ok {| extension := Some (lit ".txt");
        words := Some [(lit " ", 1); (lit "b", 2); (lit "a", 3)];
        data := Some [Int 2; Int 1; Int 3; Int 1; Int 2; Int 1; Int 3] |}
  = Ok {| extension := Some (lit ".txt");
          words := Some [(lit " ", 1); (lit "b", 2); (lit "a", 3)];
          data := Some [Int 2; Int 1; Int 3; Int 1; Int 2; Int 1; Int 3] |}
  /\ Ok {| extension := Some (lit ".txt");
           words := Some [(lit " ", 1); (lit "b", 2); (lit "a", 3)];
           data := Some [Int 2; Int 1; Int 3; Int 1; Int 2; Int 1; Int 3] |}
     = compress_file (lit "b a b a") (lit ".txt")
  /\ exists rec,
       Ok {| extension := Some (lit ".txt");
             words := Some [(lit " ", 1); (lit "b", 2); (lit "a", 3)];
             data := Some [Int 2; Int 1; Int 3; Int 1; Int 2; Int 1; Int 3] |}
       = Ok rec.
Proof.
  apply (compress_deterministic (lit "b a b a") (lit ".txt"));
    exact (compress_is_run (lit "b a b a") (lit ".txt")).
Defined.

(** * Examples *)

(** The empty text is one empty token, kept as a literal. *)
Example re_split_empty : re_split [] = [[]].
Proof. reflexivity. Qed.

Example compress_empty :
  compress_file [] (lit ".txt")
  = Ok {| extension := Some (lit ".txt");
          words := Some [];
          data := Some [Str []] |}.
Proof. reflexivity. Qed.

(** Whitespace at either end leaves an empty token there; a run of
    whitespace is one token. *)
Example re_split_edges :
  re_split (lit " a  b ")
  = [lit ""; lit " "; lit "a"; lit "  "; lit "b"; lit " "; lit ""].
Proof. reflexivity. Qed.

(** The two empty tokens of that text occur twice and so get an identifier. *)
Example compress_edges :
  compress_file (lit " a  b ") (lit "")
  = Ok {| extension := Some (lit "");
          words := Some [(lit "", 1); (lit " ", 2)];
          data := Some [Int 1; Int 2; Str (lit "a"); Str (lit "  ");
                        Str (lit "b"); Int 2; Int 1] |}.
Proof. reflexivity. Qed.

(** A no-break space (U+00A0) separates tokens as a space does. *)
Example re_split_no_break_space :
  re_split [97; 160; 98]%N = [[97]; [160]; [98]]%N.
Proof. reflexivity. Qed.

(** A record without [words] is rejected by the subscript of line 97. *)
Example decompress_missing_words :
  decompress_file {| extension := Some (lit ".txt"); words := None; data := Some [] |}
  = Error (KeyError (Str (lit "words"))).
Proof. reflexivity. Qed.

(** * Further properties *)

(** ** The shape of the token list *)

Lemma split_scan_shape (s acc : str) :
  (exists t l',
     split_scan false acc s = (rev acc ++ t) :: l'
     /\ no_space t = true /\ tail_shape l')
  /\ (exists w t l',
        split_scan true acc s = (rev acc ++ w) :: t :: l'
        /\ all_space w = true /\ no_space t = true
        /\ (l' <> [] -> t <> []) /\ tail_shape l').
Proof.
  revert acc. induction s as [| c s IH]; intros acc.
  - split.
    + exists [], []. simpl. rewrite app_nil_r.
      repeat split; constructor.
    + exists [], [], []. simpl. rewrite app_nil_r.
      repeat split; try constructor. intros H. contradiction.
  - simpl. destruct (is_space c) eqn:Sp.
    + split.
      * destruct (proj2 (IH [c])) as [w [t [l' [E [Aw [Nt [Ne T]]]]]]].
        exists [], ((c :: w) :: t :: l'). rewrite E, app_nil_r. simpl.
        repeat split. constructor; auto; [discriminate |].
        unfold all_space. simpl. rewrite Sp. exact Aw.
      * destruct (proj2 (IH (c :: acc))) as [w [t [l' [E [Aw [Nt [Ne T]]]]]]].
        exists (c :: w), t, l'. rewrite E. simpl. rewrite <- app_assoc.
        repeat split; auto. unfold all_space. simpl. rewrite Sp. exact Aw.
    + split.
      * destruct (proj1 (IH (c :: acc))) as [t [l' [E [Nt T]]]].
        exists (c :: t), l'. rewrite E. simpl. rewrite <- app_assoc.
        repeat split; auto. unfold no_space. simpl. rewrite Sp. exact Nt.
      * destruct (proj1 (IH [c])) as [t [l' [E [Nt T]]]].
        exists [], (c :: t), l'. rewrite E, app_nil_r. simpl.
        repeat split; auto; [| discriminate].
        unfold no_space. simpl. rewrite Sp. exact Nt.
Qed.

Lemma re_split_split_shape (text : str) : split_shape (re_split text).
Proof.
  destruct (proj1 (split_scan_shape text [])) as [t [l' [E [Nt T]]]].
  exists t, l'. unfold re_split. rewrite E. auto.
Qed.

Lemma tail_shape_nth (l : list str) :
  tail_shape l ->
  forall i t, nth_error l i = Some t ->
    if Nat.even i then t <> [] /\ all_space t = true else no_space t = true.
Proof.
  induction 1 as [| w t0 l Nw Aw Nt Ne T IH]; intros i t E.
  - destruct i; discriminate E.
  - destruct i as [| [| i]]; simpl in E.
    + injection E as <-. simpl. auto.
    + injection E as <-. simpl. exact Nt.
    + apply IH in E. exact E.
Qed.

Lemma tail_shape_length (l : list str) :
  tail_shape l -> Nat.even (length l) = true.
Proof. induction 1; simpl; auto. Qed.

Lemma tail_shape_empty (l : list str) :
  tail_shape l ->
  forall i, nth_error l i = Some [] -> S i = length l.
Proof.
  induction 1 as [| w t0 l Nw Aw Nt Ne T IH]; intros i E.
  - destruct i; discriminate E.
  - destruct i as [| [| i]]; simpl in E.
    + injection E as ->. contradiction.
    + injection E as ->. destruct l as [| x l]; [reflexivity |].
      exfalso. apply Ne; [discriminate | reflexivity].
    + apply IH in E. simpl. rewrite E. reflexivity.
Qed.

(** X1.  The tokens alternate: those at even positions hold no whitespace
    character, those at odd positions are non-empty runs of whitespace. *)
Theorem re_split_alternates (text : str) (i : nat) (t : str) :
  nth_error (re_split text) i = Some t ->
  if Nat.even i then no_space t = true
  else t <> [] /\ all_space t = true.
Proof.
  destruct (re_split_split_shape text) as [t0 [l' [E [Nt T]]]]. rewrite E.
  destruct i as [| i]; simpl nth_error.
  - intros [= <-]. exact Nt.
  - intros H. apply (tail_shape_nth l' T) in H.
    rewrite Nat.even_succ, <- Nat.negb_even.
    destruct (Nat.even i); exact H.
Qed.

Lemma re_split_alternates_witness :
  if Nat.even 3 then no_space (lit "  ") = true
  else lit "  " <> [] /\ all_space (lit "  ") = true.
Proof.
  apply (re_split_alternates (lit " a  b ") 3 (lit "  ")). reflexivity.
Defined.

(** X2.  The token list is never empty and has odd length: it begins and
    ends with a token that holds no whitespace. *)
Theorem re_split_length_odd (text : str) :
  Nat.odd (length (re_split text)) = true.
Proof.
  destruct (re_split_split_shape text) as [t0 [l' [E [Nt T]]]]. rewrite E.
  simpl length. rewrite Nat.odd_succ. apply tail_shape_length, T.
Qed.

(** X3.  An empty token can only be the first or the last of the list: the
    text then begins or ends with whitespace, or is empty. *)
Theorem re_split_empty_token_at_end (text : str) (i : nat) :
  nth_error (re_split text) i = Some [] ->
  i = 0%nat \/ S i = length (re_split text).
Proof.
  destruct (re_split_split_shape text) as [t0 [l' [E [Nt T]]]]. rewrite E.
  destruct i as [| i]; [left; reflexivity |]. simpl. intros H. right.
  f_equal. apply (tail_shape_empty l' T), H.
Qed.

Lemma re_split_empty_token_at_end_witness :
  4%nat = 0%nat \/ 5%nat = length (re_split (lit "a b ")).
Proof.
  apply (re_split_empty_token_at_end (lit "a b ") 4). reflexivity.
Defined.

Lemma split_scan_no_space (t acc s : str) :
  no_space t = true ->
  split_scan false acc (t ++ s) = split_scan false (rev t ++ acc) s.
Proof.
  revert acc. induction t as [| c t IH]; intros acc N; simpl; [reflexivity |].
  unfold no_space in N. simpl in N. apply andb_prop in N. destruct N as [Nc N].
  apply negb_true_iff in Nc. rewrite Nc, IH by exact N.
  rewrite <- app_assoc. reflexivity.
Qed.

Lemma split_scan_all_space (w acc s : str) :
  all_space w = true ->
  split_scan true acc (w ++ s) = split_scan true (rev w ++ acc) s.
Proof.
  revert acc. induction w as [| c w IH]; intros acc A; simpl; [reflexivity |].
  unfold all_space in A. simpl in A. apply andb_prop in A. destruct A as [Ac A].
  rewrite Ac, IH by exact A. rewrite <- app_assoc. reflexivity.
Qed.

Lemma split_scan_tail_shape (l : list str) :
  tail_shape l ->
  forall t acc, no_space t = true ->
    split_scan false acc (t ++ concat l) = (rev acc ++ t) :: l.
Proof.
  induction 1 as [| w t0 l Nw Aw Nt Ne T IH]; intros t acc N.
  - rewrite split_scan_no_space by exact N. simpl.
    rewrite rev_app_distr, rev_involutive. reflexivity.
  - rewrite split_scan_no_space by exact N.
    destruct w as [| c w]; [contradiction |].
    unfold all_space in Aw. simpl in Aw. apply andb_prop in Aw.
    destruct Aw as [Ac Aw]. simpl. rewrite Ac.
    rewrite rev_app_distr, rev_involutive. f_equal.
    rewrite split_scan_all_space by exact Aw.
    destruct t0 as [| c0 t0].
    + destruct l as [| x l]; [| exfalso; apply Ne; [discriminate | reflexivity]].
      simpl. rewrite rev_app_distr, rev_involutive. reflexivity.
    + unfold no_space in Nt. simpl in Nt. apply andb_prop in Nt.
      destruct Nt as [Nc Nt]. apply negb_true_iff in Nc.
      simpl. rewrite Nc. rewrite rev_app_distr, rev_involutive. simpl. f_equal.
      apply (IH t0 [c0]). exact Nt.
Qed.

(** X4.  Splitting undoes joining on alternating lists: a list of pieces of
    that shape is the token list of its concatenation, so the token list of
    a text is the only such list that joins to the text. *)
Theorem re_split_of_join (l : list str) :
  split_shape l -> re_split (join l) = l.
Proof.
  intros [t [l' [-> [N T]]]]. unfold re_split, join. simpl.
  apply (split_scan_tail_shape l' T t [] N).
Qed.

Lemma re_split_of_join_witness :
  re_split (join [lit ""; lit " "; lit "ab"; lit "  "; lit ""])
  = [lit ""; lit " "; lit "ab"; lit "  "; lit ""].
Proof.
  apply re_split_of_join.
  exists (lit ""), [lit " "; lit "ab"; lit "  "; lit ""].
  split; [reflexivity |]. split; [reflexivity |].
  apply tail_cons; [discriminate | reflexivity | reflexivity | discriminate |].
  apply tail_cons; [discriminate | reflexivity | reflexivity | |].
  - intros H. contradiction.
  - apply tail_nil.
Defined.

(** ** The frequency table, continued *)

Lemma mem_frequency_step (d : @Dict.t str Z) (x y : str) :
  Dict.mem str_eq_dec (frequency_step d x) y
  = Dict.mem str_eq_dec d y || (if str_eq_dec y x then true else false).
Proof.
  unfold frequency_step, Dict.mem. destruct (str_eq_dec y x) as [E | NE].
  - subst y. rewrite DictFacts.get_set_same. rewrite orb_true_r. reflexivity.
  - rewrite DictFacts.get_set_other by exact NE. rewrite orb_false_r. reflexivity.
Qed.

Lemma filter_fresh_step (d : @Dict.t str Z) (x : str) (l : list str) :
  filter (fun y => negb (Dict.mem str_eq_dec (frequency_step d x) y)) l
  = filter (fun y => negb (Dict.mem str_eq_dec d y))
      (filter (fun y => if str_eq_dec y x then false else true) l).
Proof.
  induction l as [| y l IH]; simpl; [reflexivity |].
  rewrite mem_frequency_step, IH.
  destruct (str_eq_dec y x); simpl.
  - rewrite orb_true_r. reflexivity.
  - rewrite orb_false_r.
    destruct (Dict.mem str_eq_dec d y); reflexivity.
Qed.

Lemma frequency_fold_keys (l : list str) (d : @Dict.t str Z) :
  Dict.keys (fold_left frequency_step l d)
  = Dict.keys d
    ++ filter (fun y => negb (Dict.mem str_eq_dec d y)) (first_occurrences l).
Proof.
  revert d. induction l as [| x l IH]; intros d; simpl.
  - rewrite app_nil_r. reflexivity.
  - rewrite IH, frequency_step_keys, filter_fresh_step.
    destruct (Dict.mem str_eq_dec d x); simpl.
    + reflexivity.
    + rewrite <- app_assoc. reflexivity.
Qed.

Lemma filter_all {A : Type} (l : list A) : filter (fun _ => true) l = l.
Proof. induction l as [| x l IH]; simpl; congruence. Qed.

Lemma frequency_fold_keys_first (tokens : list str) :
  Dict.keys (count_frequency tokens) = first_occurrences tokens.
Proof.
  rewrite count_frequency_unfold, frequency_fold_keys. simpl.
  apply filter_all.
Qed.

(** X5.  Iterating [frequency] visits the distinct tokens in the order of
    their first occurrence in the text. *)
Theorem frequency_keys_first_occurrences (tokens : list str) :
  Dict.keys (count_frequency tokens) = first_occurrences tokens.
Proof. apply frequency_fold_keys_first. Qed.

(** X6.  [frequency] counts occurrences: a token of the text is mapped to
    the number of times it occurs, and nothing else is a key. *)
Theorem frequency_counts_occurrences (tokens : list str) (t : str) :
  Dict.get str_eq_dec (count_frequency tokens) t
  = if in_dec str_eq_dec t tokens
    then Some (Z.of_nat (count_occ str_eq_dec tokens t))
    else None.
Proof.
  destruct (in_dec str_eq_dec t tokens) as [I | NI].
  - apply count_frequency_get, I.
  - apply DictFacts.get_None_iff. rewrite count_frequency_keys_In. exact NI.
Qed.

Lemma sum_values_set (d : @Dict.t str Z) (k : str) (v : Z) :
  sum_values (Dict.set str_eq_dec d k v)
  = sum_values d - Dict.get_default str_eq_dec d k 0 + v.
Proof.
  unfold sum_values, Dict.values, Dict.get_default.
  induction d as [| [k' v'] d IH]; simpl.
  - lia.
  - destruct (str_eq_dec k k'); simpl; lia.
Qed.

Lemma sum_values_fold (l : list str) (d : @Dict.t str Z) :
  sum_values (fold_left frequency_step l d)
  = sum_values d + Z.of_nat (length l).
Proof.
  revert d. induction l as [| x l IH]; intros d.
  - simpl. lia.
  - change (fold_left frequency_step (x :: l) d)
      with (fold_left frequency_step l (frequency_step d x)).
    rewrite IH. unfold frequency_step. rewrite sum_values_set.
    simpl length. lia.
Qed.

(** X7.  The counts of [frequency] add up to the number of tokens. *)
Theorem frequency_total (tokens : list str) :
  sum_values (count_frequency tokens) = Z.of_nat (length tokens).
Proof.
  rewrite count_frequency_unfold, sum_values_fold. reflexivity.
Qed.

(** ** The ranked list, continued *)

Lemma StronglySorted_nth {A : Type} (R : A -> A -> Prop) (l : list A) :
  StronglySorted R l ->
  forall i j x y, (i < j)%nat ->
    nth_error l i = Some x -> nth_error l j = Some y -> R x y.
Proof.
  induction 1 as [| a l S IH F]; intros i j x y Lt Ei Ej.
  - destruct i; discriminate Ei.
  - destruct j as [| j]; [lia |]. simpl in Ej. destruct i as [| i]; simpl in Ei.
    + injection Ei as <-. rewrite Forall_forall in F. apply F.
      apply nth_error_In in Ej. exact Ej.
    + apply (IH i j); [lia | assumption | assumption].
Qed.

Lemma decorated_tokens_key (tokens : list str) (p : sort_key * str) :
  In p (sort_decorated (decorated_tokens tokens)) ->
  fst p = rank_key tokens (snd p).
Proof.
  intros I. apply (Permutation_in _ (sort_decorated_perm _)) in I.
  unfold decorated_tokens in I. apply in_map_iff in I.
  destruct I as [x [<- _]]. reflexivity.
Qed.

Lemma ranked_tokens_ordered (tokens : list str) (i j : nat) (a b : str) :
  (i < j)%nat ->
  nth_error (ranked_tokens tokens) i = Some a ->
  nth_error (ranked_tokens tokens) j = Some b ->
  key_le (rank_key tokens a) (rank_key tokens b) = true.
Proof.
  unfold ranked_tokens. intros Lt Ei Ej.
  rewrite nth_error_map in Ei, Ej.
  destruct (nth_error (sort_decorated (decorated_tokens tokens)) i)
    as [p |] eqn:Pi; [| discriminate Ei].
  destruct (nth_error (sort_decorated (decorated_tokens tokens)) j)
    as [q |] eqn:Pj; [| discriminate Ej].
  simpl in Ei, Ej. injection Ei as <-. injection Ej as <-.
  rewrite <- (decorated_tokens_key tokens p) by (eapply nth_error_In, Pi).
  rewrite <- (decorated_tokens_key tokens q) by (eapply nth_error_In, Pj).
  apply (StronglySorted_nth _ _ (sort_decorated_key_sorted _) i j p q Lt Pi Pj).
Qed.

Lemma rank_key_le_iff (tokens : list str) (a b : str) :
  key_le (rank_key tokens a) (rank_key tokens b) = true
  <-> occurrences tokens a > occurrences tokens b
      \/ (occurrences tokens a = occurrences tokens b /\ len a <= len b).
Proof. unfold key_le, rank_key. simpl. lia. Qed.

(** X8.  Line 38 ranks the distinct tokens: the ranked list is a
    rearrangement of the distinct tokens of the text, and of two of its
    members the earlier one occurs more often, or as often and is not
    longer. *)
Theorem sort_tokens_ranks (tokens : list str) :
  exists sorted_tokens,
    sort_tokens (count_frequency tokens) = Ok sorted_tokens
    /\ Permutation sorted_tokens (first_occurrences tokens)
    /\ forall i j a b, (i < j)%nat ->
         nth_error sorted_tokens i = Some a ->
         nth_error sorted_tokens j = Some b ->
         occurrences tokens a > occurrences tokens b
         \/ (occurrences tokens a = occurrences tokens b /\ len a <= len b).
Proof.
  exists (ranked_tokens tokens). split; [apply sort_tokens_ok |]. split.
  - rewrite <- frequency_fold_keys_first. apply ranked_tokens_perm.
  - intros i j a b Lt Ei Ej. apply rank_key_le_iff.
    apply (ranked_tokens_ordered tokens i j); assumption.
Qed.

(** ** The identifiers, continued *)

Lemma first_index_nth (x : str) (l : list str) (i : nat) :
  first_index x l = Some i -> nth_error l i = Some x.
Proof.
  revert i. induction l as [| y l IH]; intros i; simpl; [discriminate |].
  destruct (str_eq_dec x y) as [E | NE].
  - intros [= <-]. simpl. congruence.
  - destruct (first_index x l) as [j |]; [| discriminate].
    simpl. intros [= <-]. simpl. apply IH. reflexivity.
Qed.

Lemma word_dict_get (tokens : list str) (t : str) (id : Z) :
  Dict.get str_eq_dec
    (assign_ids (worth_replacing tokens) 0 (ranked_tokens tokens)) t = Some id
  <-> (occurrences tokens t > 1 \/ len t > 3)
      /\ exists i, first_index t (ranked_tokens tokens) = Some i
                   /\ id = Z.of_nat i + 1.
Proof.
  rewrite assign_ids_get, <- worth_replacing_iff.
  destruct (worth_replacing tokens t).
  - destruct (first_index t (ranked_tokens tokens)) as [i |]; simpl.
    + split.
      * intros [= <-]. split; [reflexivity |]. exists i. auto.
      * intros [_ [j [[= <-] ->]]]. reflexivity.
    + split; [discriminate |]. intros [_ [j [E _]]]. discriminate E.
  - split; [discriminate |]. intros [E _]. discriminate E.
Qed.

(** X9.  An identifier is one more than the rank of its token among all
    the distinct tokens of the text, replaced or not: the identifiers of
    [words] need not be consecutive. *)
Theorem identifier_is_rank_plus_one (text ext : str) :
  exists sorted_tokens w d,
    sort_tokens (count_frequency (re_split text)) = Ok sorted_tokens
    /\ compress_file text ext
       = Ok {| extension := Some ext; words := Some w; data := Some d |}
    /\ forall t id,
         Dict.get str_eq_dec w t = Some id
         <-> (occurrences (re_split text) t > 1 \/ len t > 3)
             /\ exists i, first_index t sorted_tokens = Some i
                          /\ id = Z.of_nat i + 1.
Proof.
  exists (ranked_tokens (re_split text)). do 2 eexists.
  split; [apply sort_tokens_ok |]. split; [apply compress_ok |].
  intros t id. apply word_dict_get.
Qed.

(** X10.  Smaller identifiers go to the tokens that occur more often: of
    two keys of [words], the one with the smaller identifier occurs more
    often than the other, or as often and is not longer. *)
Theorem identifiers_follow_frequency (text ext : str) :
  exists w d,
    compress_file text ext
    = Ok {| extension := Some ext; words := Some w; data := Some d |}
    /\ forall a b ida idb,
         Dict.get str_eq_dec w a = Some ida ->
         Dict.get str_eq_dec w b = Some idb ->
         ida < idb ->
         occurrences (re_split text) a > occurrences (re_split text) b
         \/ (occurrences (re_split text) a = occurrences (re_split text) b
             /\ len a <= len b).
Proof.
  do 2 eexists. split; [apply compress_ok |].
  intros a b ida idb Ga Gb Lt.
  apply word_dict_get in Ga, Gb.
  destruct Ga as [_ [i [Ia ->]]]. destruct Gb as [_ [j [Ib ->]]].
  apply rank_key_le_iff.
  apply (ranked_tokens_ordered (re_split text) i j);
    [lia | apply first_index_nth, Ia | apply first_index_nth, Ib].
Qed.

Lemma assign_ids_values_sorted (q : str -> bool) (n : nat) (l : list str) :
  StronglySorted Z.lt (Dict.values (assign_ids q n l)).
Proof.
  revert n. induction l as [| t l IH]; intros n; simpl; [constructor |].
  destruct (q t); simpl; [| apply IH].
  constructor; [apply IH |]. apply Forall_forall. intros v I.
  apply assign_ids_values_range in I. lia.
Qed.

(** X11.  [words] lists its entries by increasing identifier, so the keys
    of the written object come in rank order. *)
Theorem words_in_identifier_order (text ext : str) :
  exists w d,
    compress_file text ext
    = Ok {| extension := Some ext; words := Some w; data := Some d |}
    /\ StronglySorted Z.lt (Dict.values w).
Proof.
  do 2 eexists. split; [apply compress_ok | apply assign_ids_values_sorted].
Qed.

(** ** The data list, continued *)

Lemma word_dict_keys_NoDup (tokens : list str) :
  NoDup (Dict.keys (assign_ids (worth_replacing tokens) 0 (ranked_tokens tokens))).
Proof.
  rewrite assign_ids_keys. apply NoDup_filter, ranked_tokens_NoDup.
Qed.

(** X12.  A token that is a key of [words] is replaced everywhere: at each
    of its positions [data] holds its identifier, never the token. *)
Theorem keys_replaced_everywhere (text ext : str) :
  exists w d,
    compress_file text ext
    = Ok {| extension := Some ext; words := Some w; data := Some d |}
    /\ forall i t id,
         nth_error (re_split text) i = Some t ->
         Dict.get str_eq_dec w t = Some id ->
         nth_error d i = Some (Int id).
Proof.
  do 2 eexists. split; [apply compress_ok |].
  intros i t id N G. rewrite nth_error_map, N. simpl.
  unfold encode_token. rewrite G. reflexivity.
Qed.

(** X13.  The record is closed: the integers of [data] are exactly the
    values of [words] (no identifier without an entry, no entry that is not
    used), and the strings of [data] are tokens of the text that are not
    keys of [words]. *)
Theorem record_closed (text ext : str) :
  exists w d,
    compress_file text ext
    = Ok {| extension := Some ext; words := Some w; data := Some d |}
    /\ (forall j, In (Int j) d <-> In j (Dict.values w))
    /\ (forall s, In (Str s) d ->
          In s (re_split text) /\ ~ In s (Dict.keys w)).
Proof.
  do 2 eexists. split; [apply compress_ok |].
  set (tokens := re_split text).
  set (w := assign_ids (worth_replacing tokens) 0 (ranked_tokens tokens)).
  split.
  - intros j. split.
    + intros I. apply in_map_iff in I. destruct I as [t [E I]].
      unfold encode_token in E.
      destruct (Dict.get str_eq_dec w t) as [i |] eqn:G; [| discriminate E].
      injection E as ->. apply (DictFacts.get_Some_In str_eq_dec) in G.
      apply (in_map snd) in G. exact G.
    + intros I. apply in_map_iff in I. destruct I as [[t v] [E I]].
      simpl in E. subst v.
      assert (G : Dict.get str_eq_dec w t = Some j).
      { apply DictFacts.In_get; [apply word_dict_keys_NoDup | exact I]. }
      apply in_map_iff. exists t. split.
      * unfold encode_token. rewrite G. reflexivity.
      * apply (in_map fst) in I. apply word_dict_keys_iff in I. apply I.
  - intros s I. apply in_map_iff in I. destruct I as [t [E I]].
    unfold encode_token in E.
    destruct (Dict.get str_eq_dec w t) as [i |] eqn:G; [discriminate E |].
    injection E as ->. split; [exact I |].
    apply (DictFacts.get_None_iff str_eq_dec), G.
Qed.

(** ** Decoding, continued *)

Lemma Forall2_resolve_known (w : @Dict.t str Z) (d : list item)
    (toks : list str) :
  Forall2 (fun it tok => resolve w it = Some tok) d toks ->
  forall j, In (Int j) d -> In j (Dict.values w).
Proof.
  induction 1 as [| it tok d toks R F IH]; intros j I; [destruct I |].
  destruct I as [-> | I]; [| apply IH, I].
  simpl in R. destruct (in_dec Z.eq_dec j (Dict.values w)) as [H | H];
    [exact H |].
  apply last_key_with_None_iff in H. congruence.
Qed.

Lemma decompress_Ok_inv (e : option str) (w : @Dict.t str Z) (d : list item)
    (text x : str) :
  decompress_file {| extension := e; words := Some w; data := Some d |}
  = Ok (text, x) ->
  exists toks,
    Forall2 (fun it tok => resolve w it = Some tok) d toks
    /\ text = join toks /\ x = get_field e (lit ".txt").
Proof.
  intros E. destruct (resolve_all_dec w d) as [[toks F] | U].
  - exists toks. rewrite (decompress_resolved _ _ _ toks F) in E.
    injection E as <- <-. auto.
  - destruct (decompress_unknown e w d U) as [j [_ [_ Ej]]]. congruence.
Qed.

(** X14.  Decoding succeeds exactly on the records that have [words] and
    [data] and in which every integer of [data] is a value of [words]. *)
Theorem decompress_succeeds_iff (r : record) :
  (exists text ext, decompress_file r = Ok (text, ext))
  <-> exists w d,
        words r = Some w /\ data r = Some d
        /\ forall j, In (Int j) d -> In j (Dict.values w).
Proof.
  destruct r as [e [w |] [d |]]; simpl.
  - split.
    + intros [text [x E]]. exists w, d. split; [reflexivity |].
      split; [reflexivity |].
      apply decompress_Ok_inv in E. destruct E as [toks [F _]].
      apply (Forall2_resolve_known w d toks F).
    + intros [w0 [d0 [[= <-] [[= <-] Known]]]].
      destruct (resolve_known w d Known) as [toks F].
      do 2 eexists. apply (decompress_resolved _ _ _ toks F).
  - split; [intros [text [x E]]; discriminate E |].
    intros [w0 [d0 [_ [E _]]]]. discriminate E.
  - split; [intros [text [x E]]; discriminate E |].
    intros [w0 [d0 [E _]]]. discriminate E.
  - split; [intros [text [x E]]; discriminate E |].
    intros [w0 [d0 [E _]]]. discriminate E.
Qed.

(** X15.  The exception names the first integer of [data] that [words]
    does not have, whatever follows it. *)
Theorem first_unknown_identifier_reported (e : option str)
    (w : @Dict.t str Z) (d1 d2 : list item) (j : Z) :
  (forall i, In (Int i) d1 -> In i (Dict.values w)) ->
  ~ In j (Dict.values w) ->
  decompress_file
    {| extension := e; words := Some w; data := Some (d1 ++ Int j :: d2) |}
  = Error (KeyError (Int j)).
Proof.
  intros Known U. destruct (resolve_known w d1 Known) as [toks F].
  unfold decompress_file, restore_tokens. simpl.
  rewrite for_each_app, (restore_tokens_from w d1 toks [] F). simpl.
  unfold getitem_int. rewrite reverse_mapping_get.
  apply last_key_with_None_iff in U. rewrite U. reflexivity.
Qed.

Lemma first_unknown_identifier_reported_witness :
  decompress_file
    {| extension := None;
       words := Some [(lit "ab", 1)];
       data := Some ([Int 1; Str (lit " ")] ++ Int 5 :: [Int 9; Int 1]) |}
  = Error (KeyError (Int 5)).
Proof.
  apply first_unknown_identifier_reported.
  - simpl. intros i [H | [H | []]]; [| discriminate H].
    injection H as <-. left. reflexivity.
  - simpl. intros [H | []]. discriminate H.
Defined.

(** X16.  Decoding goes entry by entry: when two data lists decode under
    the same [words], their concatenation decodes to the concatenation of
    the two texts. *)
Theorem decompress_concatenates (e : option str) (w : @Dict.t str Z)
    (d1 d2 : list item) (t1 t2 x1 x2 : str) :
  decompress_file {| extension := e; words := Some w; data := Some d1 |}
  = Ok (t1, x1) ->
  decompress_file {| extension := e; words := Some w; data := Some d2 |}
  = Ok (t2, x2) ->
  decompress_file {| extension := e; words := Some w; data := Some (d1 ++ d2) |}
  = Ok (t1 ++ t2, x1).
Proof.
  intros E1 E2. apply decompress_Ok_inv in E1, E2.
  destruct E1 as [toks1 [F1 [-> ->]]]. destruct E2 as [toks2 [F2 [-> _]]].
  rewrite (decompress_resolved _ _ _ (toks1 ++ toks2)).
  - unfold join. rewrite concat_app. reflexivity.
  - apply Forall2_app; assumption.
Qed.

Lemma decompress_concatenates_witness :
  decompress_file
    {| extension := Some (lit ".md");
       words := Some [(lit "ab", 1)];
       data := Some ([Int 1; Str (lit " ")] ++ [Int 1]) |}
  = Ok (lit "ab " ++ lit "ab", lit ".md").
Proof.
  apply (decompress_concatenates (Some (lit ".md")) [(lit "ab", 1)]
           [Int 1; Str (lit " ")] [Int 1]
           (lit "ab ") (lit "ab") (lit ".md") (lit ".md"));
    reflexivity.
Defined.

Lemma restore_tokens_ext_from (w w' : @Dict.t str Z) (d : list item)
    (acc : list str) :
  (forall j, last_key_with j w = last_key_with j w') ->
  for_each
    (fun restored_tokens it =>
       match it with
       | Int i =>
           w0 <- getitem_int (reverse_mapping w) i ;; Ok (restored_tokens ++ [w0])
       | Str s => Ok (restored_tokens ++ [s])
       end)
    d acc
  = for_each
      (fun restored_tokens it =>
         match it with
         | Int i =>
             w0 <- getitem_int (reverse_mapping w') i ;;
             Ok (restored_tokens ++ [w0])
         | Str s => Ok (restored_tokens ++ [s])
         end)
      d acc.
Proof.
  intros Same. revert acc.
  induction d as [| it d IH]; intros acc; simpl; [reflexivity |].
  destruct it as [i | s].
  - unfold getitem_int. rewrite !reverse_mapping_get, Same.
    destruct (last_key_with i w'); simpl; [apply IH | reflexivity].
  - simpl. apply IH.
Qed.

Lemma restore_tokens_ext (w w' : @Dict.t str Z) (d : list item) :
  (forall j, last_key_with j w = last_key_with j w') ->
  restore_tokens (reverse_mapping w) d = restore_tokens (reverse_mapping w') d.
Proof.
  intros Same. unfold restore_tokens. apply restore_tokens_ext_from, Same.
Qed.

Lemma last_key_with_perm (w w' : @Dict.t str Z) (j : Z) :
  NoDup (Dict.values w) -> Permutation w w' ->
  last_key_with j w = last_key_with j w'.
Proof.
  intros ND P.
  assert (ND' : NoDup (Dict.values w')).
  { apply (Permutation_NoDup (Permutation_map snd P)), ND. }
  destruct (last_key_with j w') as [k |] eqn:L.
  - apply last_key_with_unique; [exact ND |].
    apply (Permutation_in _ (Permutation_sym P)), last_key_with_In, L.
  - apply last_key_with_None_iff. apply last_key_with_None_iff in L.
    intros I. apply L. apply (Permutation_in _ (Permutation_map snd P)), I.
Qed.

(** X17.  When the identifiers of [words] are pairwise distinct, the order
    of its entries does not matter to decoding. *)
Theorem decompress_order_of_words (e : option str) (w w' : @Dict.t str Z)
    (d : list item) :
  NoDup (Dict.values w) -> Permutation w w' ->
  decompress_file {| extension := e; words := Some w; data := Some d |}
  = decompress_file {| extension := e; words := Some w'; data := Some d |}.
Proof.
  intros ND P. unfold decompress_file. simpl.
  rewrite (restore_tokens_ext w w' d); [reflexivity |].
  intros j. apply last_key_with_perm; assumption.
Qed.

Lemma decompress_order_of_words_witness :
  decompress_file {| extension := None;
                     words := Some [(lit "ab", 1); (lit "cd", 2)];
                     data := Some [Int 2; Int 1; Int 3] |}
  = decompress_file {| extension := None;
                       words := Some [(lit "cd", 2); (lit "ab", 1)];
                       data := Some [Int 2; Int 1; Int 3] |}.
Proof.
  apply decompress_order_of_words.
  - simpl. repeat constructor; simpl; intuition discriminate.
  - apply perm_swap.
Defined.

(** X18.  The format is lossless for any dictionary with pairwise distinct
    identifiers, not only the one [compress_file] builds: replacing the
    tokens that are keys by their identifiers and decoding gives back the
    concatenation of the tokens. *)
Theorem any_dictionary_round_trip (e : option str) (w : @Dict.t str Z)
    (tokens : list str) :
  NoDup (Dict.values w) ->
  decompress_file
    {| extension := e; words := Some w;
       data := Some (map (encode_token w) tokens) |}
  = Ok (join tokens, get_field e (lit ".txt")).
Proof.
  intros ND. apply decompress_resolved, encode_tokens_resolve, ND.
Qed.

Lemma any_dictionary_round_trip_witness :
  decompress_file
    {| extension := Some (lit ".c");
       words := Some [(lit "x", 7); (lit " ", 3)];
       data := Some (map (encode_token [(lit "x", 7); (lit " ", 3)])
                       [lit "x"; lit " "; lit "y"; lit " "; lit "x"]) |}
  = Ok (join [lit "x"; lit " "; lit "y"; lit " "; lit "x"],
        get_field (Some (lit ".c")) (lit ".txt")).
Proof.
  apply any_dictionary_round_trip.
  simpl. repeat constructor; simpl; intuition discriminate.
Defined.

(** ** Fresh file names *)



Section UniqueFilenameFacts.
Variable path_exists : str -> bool.
Variable path_stem : str -> str.
Variable path_suffix : str -> str.
Variable path_sibling : str -> str -> str.

Local Abbreviation candidate :=
  (fun filepath counter =>
     path_sibling filepath (new_name path_stem path_suffix filepath counter)).
Local Abbreviation loop :=
  (unique_loop path_exists path_stem path_suffix path_sibling).
Local Abbreviation unique :=
  (get_unique_filename path_exists path_stem path_suffix path_sibling).


Lemma unique_loop_Some (fuel : nat) (filepath : str) (c : Z) (p : str) :
  loop fuel filepath c = Some p ->
  exists k, c <= k /\ p = candidate filepath k
            /\ path_exists p = false
            /\ forall n, c <= n < k -> path_exists (candidate filepath n) = true.
Proof.
  revert c. induction fuel as [| fuel IH]; intros c; simpl; [discriminate |].
  destruct (path_exists (candidate filepath c)) eqn:Ex; simpl.
  - intros H. apply IH in H. destruct H as [k [Le [E [Free Busy]]]].
    exists k. split; [lia |]. split; [exact E |]. split; [exact Free |].
    intros n Hn. destruct (Z.eq_dec n c) as [-> | NE]; [exact Ex |].
    apply Busy. lia.
  - intros [= <-]. exists c. split; [lia |]. split; [reflexivity |].
    split; [exact Ex |]. intros n Hn. lia.
Qed.

Lemma unique_loop_first_free (fuel : nat) (filepath : str) (c k : Z) :
  c <= k -> (Z.to_nat (k - c) < fuel)%nat ->
  (forall n, c <= n < k -> path_exists (candidate filepath n) = true) ->
  path_exists (candidate filepath k) = false ->
  loop fuel filepath c = Some (candidate filepath k).
Proof.
  revert c. induction fuel as [| fuel IH]; intros c Le Fuel Busy Free; [lia |].
  simpl. destruct (Z.eq_dec c k) as [-> | NE].
  - rewrite Free. reflexivity.
  - rewrite Busy by lia. simpl. apply IH; [lia | lia | | exact Free].
    intros n Hn. apply Busy. lia.
Qed.


Lemma unique_not_existing (fuel : nat) (filepath p : str) :
  unique fuel filepath = Some p -> path_exists p = false.
Proof.
  unfold get_unique_filename.
  destruct (path_exists filepath) eqn:Ex; simpl.
  - intros H. apply unique_loop_Some in H.
    destruct H as [k [_ [_ [Free _]]]]. exact Free.
  - intros [= <-]. exact Ex.
Qed.

(** X19.  The name returned is never the name of an existing file.  It is
    the given path when that path is free; otherwise it is the candidate
    built with some counter from 1 on, all the candidates of smaller
    counters being taken. *)
Theorem get_unique_filename_free (fuel : nat) (filepath p : str) :
  unique fuel filepath = Some p ->
  path_exists p = false
  /\ (p = filepath
      \/ path_exists filepath = true
         /\ exists c, 1 <= c /\ p = candidate filepath c
              /\ forall n, 1 <= n < c ->
                   path_exists (candidate filepath n) = true).
Proof.
  unfold get_unique_filename.
  destruct (path_exists filepath) eqn:Ex; simpl.
  - intros H. apply unique_loop_Some in H.
    destruct H as [k [Le [E [Free Busy]]]].
    split; [exact Free |]. right. split; [reflexivity |]. exists k. auto.
  - intros [= <-]. split; [exact Ex | left; reflexivity].
Qed.

(** X20.  When the given path is taken, the loop stops at the first counter
    whose candidate is free and returns that candidate, provided it may run
    that many times. *)
Theorem get_unique_filename_first_free (fuel : nat) (filepath : str) (c : Z) :
  path_exists filepath = true ->
  1 <= c ->
  (forall n, 1 <= n < c -> path_exists (candidate filepath n) = true) ->
  path_exists (candidate filepath c) = false ->
  (Z.to_nat c <= fuel)%nat ->
  unique fuel filepath = Some (candidate filepath c).
Proof.
  intros Ex Le Busy Free Fuel. unfold get_unique_filename. rewrite Ex. simpl.
  apply unique_loop_first_free; [exact Le | lia | exact Busy | exact Free].
Qed.

(** X21.  A returned name is stable: asking again for a unique name from it
    returns it unchanged, whatever the bound. *)
Theorem get_unique_filename_idempotent (fuel fuel' : nat) (filepath p : str) :
  unique fuel filepath = Some p -> unique fuel' p = Some p.
Proof.
  intros H. apply unique_not_existing in H.
  unfold get_unique_filename. rewrite H. reflexivity.
Qed.


(** X23.  [compress_file] writes its record under a name that no existing
    file has; in particular the file being compressed is not overwritten,
    even when its own name ends in [.json]. *)
Theorem compress_output_path_fresh (fuel : nat) (file_path p : str) :
  path_exists file_path = true ->
  compress_output_path path_exists path_stem path_suffix path_sibling
    fuel file_path = Some p ->
  path_exists p = false /\ p <> file_path.
Proof.
  unfold compress_output_path. intros Ex H. apply unique_not_existing in H.
  split; [exact H |]. intros ->. congruence.
Qed.

(** X24.  [decompress_file] writes the restored text under a name that no
    existing file has, whatever extension the record holds; in particular
    the record being read is not overwritten. *)
Theorem decompress_output_path_fresh (fuel : nat)
    (json_path extension p : str) :
  path_exists json_path = true ->
  decompress_output_path path_exists path_stem path_suffix path_sibling
    fuel json_path extension = Some p ->
  path_exists p = false /\ p <> json_path.
Proof.
  unfold decompress_output_path. intros Ex H. apply unique_not_existing in H.
  split; [exact H |]. intros ->. congruence.
Qed.

End UniqueFilenameFacts.


Lemma get_unique_filename_free_witness :
  listed [lit "notes.json"; lit "notes_1.json"] (lit "notes_2.json") = false
  /\ (lit "notes_2.json" = lit "notes.json"
      \/ listed [lit "notes.json"; lit "notes_1.json"] (lit "notes.json") = true
         /\ exists c,
              1 <= c
              /\ lit "notes_2.json"
                 = new_name (fun _ => lit "notes") (fun _ => lit ".json")
                     (lit "notes.json") c
              /\ forall n, 1 <= n < c ->
                   listed [lit "notes.json"; lit "notes_1.json"]
                     (new_name (fun _ => lit "notes") (fun _ => lit ".json")
                        (lit "notes.json") n)
                   = true).
Proof.
  apply (get_unique_filename_free
           (listed [lit "notes.json"; lit "notes_1.json"])
           (fun _ => lit "notes") (fun _ => lit ".json") (fun _ name => name)
           5 (lit "notes.json") (lit "notes_2.json")).
  reflexivity.
Defined.

Lemma get_unique_filename_first_free_witness :
  get_unique_filename (listed [lit "notes.json"; lit "notes_1.json"])
    (fun _ => lit "notes") (fun _ => lit ".json") (fun _ name => name)
    2 (lit "notes.json")
  = Some (lit "notes_2.json").
Proof.
  apply (get_unique_filename_first_free
           (listed [lit "notes.json"; lit "notes_1.json"])
           (fun _ => lit "notes") (fun _ => lit ".json") (fun _ name => name)
           2 (lit "notes.json") 2).
  - reflexivity.
  - lia.
  - intros n Hn. assert (n = 1) as -> by lia. reflexivity.
  - reflexivity.
  - simpl. lia.
Defined.

Lemma get_unique_filename_idempotent_witness :
  get_unique_filename (listed [lit "notes.json"; lit "notes_1.json"])
    (fun _ => lit "notes") (fun _ => lit ".json") (fun _ name => name)
    0 (lit "notes_2.json")
  = Some (lit "notes_2.json").
Proof.
  apply (get_unique_filename_idempotent
           (listed [lit "notes.json"; lit "notes_1.json"])
           (fun _ => lit "notes") (fun _ => lit ".json") (fun _ name => name)
           5 0 (lit "notes.json") (lit "notes_2.json")).
  reflexivity.
Defined.


Lemma compress_output_path_fresh_witness :
  listed [lit "notes.json"; lit "notes_1.json"] (lit "notes_2.json") = false
  /\ lit "notes_2.json" <> lit "notes.json".
Proof.
  apply (compress_output_path_fresh
           (listed [lit "notes.json"; lit "notes_1.json"])
           (fun _ => lit "notes") (fun _ => lit ".json") (fun _ name => name)
           5 (lit "notes.json") (lit "notes_2.json")); reflexivity.
Defined.

Lemma decompress_output_path_fresh_witness :
  listed [lit "notes.json"; lit "notes.txt"] (lit "notes_1.txt") = false
  /\ lit "notes_1.txt" <> lit "notes.json".
Proof.
  apply (decompress_output_path_fresh
           (listed [lit "notes.json"; lit "notes.txt"])
           (fun _ => lit "notes") (fun _ => lit ".txt") (fun _ name => name)
           5 (lit "notes.json") (lit ".txt") (lit "notes_1.txt")); reflexivity.
Defined.

(** ** The size check *)

(** Case analysis on the comparisons of code points in sight. *)
Ltac code_point_cases :=
  repeat match goal with
    | H : context [N.ltb ?a ?b] |- _ => destruct (N.ltb_spec a b); simpl in H
    | H : context [N.leb ?a ?b] |- _ => destruct (N.leb_spec a b); simpl in H
    | H : context [N.eqb ?a ?b] |- _ => destruct (N.eqb_spec a b); simpl in H
    | |- context [N.ltb ?a ?b] => destruct (N.ltb_spec a b); simpl
    | |- context [N.leb ?a ?b] => destruct (N.leb_spec a b); simpl
    | |- context [N.eqb ?a ?b] => destruct (N.eqb_spec a b); simpl
    end;
  try discriminate; try (exfalso; lia).

Lemma utf8_bytes_spec (c : N) :
  ((c <? 55296) || (57343 <? c) && (c <? 1114112))%N = true ->
  exists b, utf8_bytes c = Some b /\ length b = utf8_width c.
Proof.
  intros V. unfold utf8_bytes, utf8_width.
  code_point_cases; eexists; split; reflexivity.
Qed.

Lemma utf8_bytes_Some (c : N) (b : list N) :
  utf8_bytes c = Some b ->
  ((c <? 55296) || (57343 <? c) && (c <? 1114112))%N = true.
Proof.
  unfold utf8_bytes. intros E. code_point_cases; reflexivity.
Qed.

Lemma utf8_encode_encodable (s : str) :
  encodable s = true ->
  exists bs, utf8_encode s = Some bs /\ length bs = utf8_size s.
Proof.
  induction s as [| c s IH]; simpl; intros V.
  - exists []. auto.
  - apply andb_prop in V. destruct V as [Vc V].
    destruct (utf8_bytes_spec c Vc) as [b [Eb Lb]].
    destruct (IH V) as [bs [Ebs Lbs]].
    exists (b ++ bs). rewrite Eb, Ebs. split; [reflexivity |].
    rewrite length_app. congruence.
Qed.

Lemma utf8_encode_Some (s : str) (bs : list N) :
  utf8_encode s = Some bs -> encodable s = true /\ length bs = utf8_size s.
Proof.
  revert bs. induction s as [| c s IH]; simpl; intros bs E.
  - injection E as <-. auto.
  - destruct (utf8_bytes c) as [b |] eqn:Eb; [| discriminate E].
    destruct (utf8_encode s) as [bs' |] eqn:Ebs; [| discriminate E].
    injection E as <-. destruct (IH bs' eq_refl) as [V L].
    rewrite (utf8_bytes_Some c b Eb), V. split; [reflexivity |].
    destruct (utf8_bytes_spec c (utf8_bytes_Some c b Eb)) as [b' [Eb' Lb']].
    rewrite length_app. congruence.
Qed.

Lemma encodable_app (s t : str) :
  encodable (s ++ t) = encodable s && encodable t.
Proof. apply forallb_app. Qed.

Lemma utf8_size_app (s t : str) :
  utf8_size (s ++ t) = (utf8_size s + utf8_size t)%nat.
Proof.
  induction s as [| c s IH]; simpl; [reflexivity |]. rewrite IH. lia.
Qed.

Lemma encodable_concat (l : list str) :
  encodable (concat l) = forallb encodable l.
Proof.
  induction l as [| t l IH]; simpl; [reflexivity |].
  rewrite encodable_app, IH. reflexivity.
Qed.

Lemma encodable_lit (s : String.string) : encodable (lit s) = true.
Proof.
  unfold lit, encodable. apply forallb_forall. intros c I.
  apply in_map_iff in I. destruct I as [a [<- _]].
  pose proof (N_ascii_bounded a). code_point_cases; reflexivity.
Qed.

Lemma utf8_width_pos (c : N) : (1 <= utf8_width c)%nat.
Proof. unfold utf8_width. code_point_cases; lia. Qed.

Lemma small_encodable (l : str) :
  Forall (fun c => (c < 128)%N) l -> encodable l = true.
Proof.
  intros F. apply forallb_forall. intros c I.
  rewrite Forall_forall in F. specialize (F c I).
  code_point_cases; reflexivity.
Qed.

Lemma hex_digit_small (n : N) : (n < 16)%N -> (hex_digit n < 128)%N.
Proof.
  intros H. unfold hex_digit. destruct (N.ltb_spec n 10); lia.
Qed.

Lemma escape_char_encodable (c : N) :
  encodable [c] = true -> encodable (escape_char c) = true.
Proof.
  intros V. unfold escape_char.
  destruct (N.eqb_spec c 34); [reflexivity |].
  destruct (N.eqb_spec c 92); [reflexivity |].
  destruct (N.eqb_spec c 8); [reflexivity |].
  destruct (N.eqb_spec c 12); [reflexivity |].
  destruct (N.eqb_spec c 10); [reflexivity |].
  destruct (N.eqb_spec c 13); [reflexivity |].
  destruct (N.eqb_spec c 9); [reflexivity |].
  destruct (N.ltb_spec c 32); cbv iota; [| exact V].
  apply small_encodable.
  repeat (constructor; [try lia |]); try constructor.
  - apply hex_digit_small, N.Div0.div_lt_upper_bound. lia.
  - apply hex_digit_small, N.mod_lt. lia.
Qed.

Lemma escape_char_size (c : N) :
  (utf8_width c <= utf8_size (escape_char c))%nat.
Proof.
  unfold escape_char.
  destruct (N.eqb_spec c 34) as [-> |]; [vm_compute; lia |].
  destruct (N.eqb_spec c 92) as [-> |]; [vm_compute; lia |].
  destruct (N.eqb_spec c 8) as [-> |]; [vm_compute; lia |].
  destruct (N.eqb_spec c 12) as [-> |]; [vm_compute; lia |].
  destruct (N.eqb_spec c 10) as [-> |]; [vm_compute; lia |].
  destruct (N.eqb_spec c 13) as [-> |]; [vm_compute; lia |].
  destruct (N.eqb_spec c 9) as [-> |]; [vm_compute; lia |].
  destruct (N.ltb_spec c 32); cbv iota; cbn [utf8_size fold_right]; [| lia].
  assert (W : utf8_width c = 1%nat).
  { unfold utf8_width. code_point_cases. reflexivity. }
  pose proof (utf8_width_pos 92). lia.
Qed.

Lemma escaped_encodable (s : str) :
  encodable s = true -> encodable (flat_map escape_char s) = true.
Proof.
  induction s as [| c s IH]; simpl; intros V; [reflexivity |].
  apply andb_prop in V. destruct V as [Vc V].
  rewrite encodable_app, IH by exact V. rewrite andb_true_r.
  apply escape_char_encodable. simpl. rewrite Vc. reflexivity.
Qed.

Lemma escaped_size (s : str) :
  (utf8_size s <= utf8_size (flat_map escape_char s))%nat.
Proof.
  induction s as [| c s IH]; simpl; [lia |].
  rewrite utf8_size_app. pose proof (escape_char_size c). lia.
Qed.

Lemma json_string_encodable (s : str) :
  encodable s = true -> encodable (json_string s) = true.
Proof.
  intros V. unfold json_string. rewrite !encodable_app.
  rewrite (escaped_encodable s V). reflexivity.
Qed.

Lemma json_string_size (s : str) :
  (2 + utf8_size s <= utf8_size (json_string s))%nat.
Proof.
  unfold json_string. rewrite !utf8_size_app.
  pose proof (escaped_size s). simpl. lia.
Qed.

Lemma format_int_encodable (i : Z) : encodable (format_int i) = true.
Proof. apply encodable_lit. Qed.

Lemma format_int_size (i : Z) : (1 <= utf8_size (format_int i))%nat.
Proof.
  unfold format_int.
  assert (H : forall s, s <> EmptyString -> (1 <= utf8_size (lit s))%nat).
  { intros [| a s] N; [congruence |]. unfold lit. simpl.
    pose proof (utf8_width_pos (N_of_ascii a)). lia. }
  apply H. destruct i as [| p | p]; simpl.
  - discriminate.
  - destruct (Pos.to_uint p); discriminate.
  - discriminate.
Qed.

Lemma join_with_encodable (sep : str) (l : list str) :
  encodable sep = true -> forallb encodable l = true ->
  encodable (join_with sep l) = true.
Proof.
  intros Vs. induction l as [| x l IH]; intros V; [reflexivity |].
  simpl in V. apply andb_prop in V. destruct V as [Vx V].
  destruct l as [| y l]; [exact Vx |].
  change (join_with sep (x :: y :: l)) with (x ++ sep ++ join_with sep (y :: l)).
  rewrite !encodable_app, Vx, Vs, IH by exact V. reflexivity.
Qed.

Lemma join_with_size (sep : str) (l : list str) :
  (utf8_size (concat l) <= utf8_size (join_with sep l))%nat.
Proof.
  induction l as [| x l IH]; [simpl; lia |].
  destruct l as [| y l].
  - simpl. rewrite app_nil_r. lia.
  - change (join_with sep (x :: y :: l)) with (x ++ sep ++ join_with sep (y :: l)).
    change (concat (x :: y :: l)) with (x ++ concat (y :: l)).
    rewrite !utf8_size_app. lia.
Qed.

Lemma json_item_encodable (it : item) :
  (forall s, it = Str s -> encodable s = true) ->
  encodable (json_item it) = true.
Proof.
  destruct it as [i | s]; simpl; intros V.
  - apply format_int_encodable.
  - apply json_string_encodable, V. reflexivity.
Qed.

Lemma json_array_encodable (d : list item) :
  (forall s, In (Str s) d -> encodable s = true) ->
  encodable (json_array d) = true.
Proof.
  intros V. unfold json_array. rewrite !encodable_app, !encodable_lit.
  rewrite andb_true_r, andb_true_l.
  apply join_with_encodable; [apply encodable_lit |].
  apply forallb_forall. intros x I. apply in_map_iff in I.
  destruct I as [it [<- I]]. apply json_item_encodable.
  intros s ->. apply V, I.
Qed.

Lemma json_words_encodable (w : @Dict.t str Z) :
  (forall k, In k (Dict.keys w) -> encodable k = true) ->
  encodable (json_words w) = true.
Proof.
  intros V. unfold json_words. rewrite !encodable_app, !encodable_lit.
  rewrite andb_true_r, andb_true_l.
  apply join_with_encodable; [apply encodable_lit |].
  apply forallb_forall. intros x I. apply in_map_iff in I.
  destruct I as [[k v] [<- I]]. cbn [fst snd].
  rewrite !encodable_app, encodable_lit, format_int_encodable.
  rewrite json_string_encodable; [reflexivity |].
  apply V. apply (in_map fst) in I. exact I.
Qed.

Lemma json_array_size (d : list item) :
  (2 + utf8_size (concat (map json_item d)) <= utf8_size (json_array d))%nat.
Proof.
  unfold json_array. rewrite !utf8_size_app.
  pose proof (join_with_size (lit ",") (map json_item d)).
  change (utf8_size (lit "[")) with 1%nat.
  change (utf8_size (lit "]")) with 1%nat. lia.
Qed.

Lemma json_words_size (w : @Dict.t str Z) : (2 <= utf8_size (json_words w))%nat.
Proof.
  unfold json_words. rewrite !utf8_size_app.
  change (utf8_size (lit "{")) with 1%nat.
  change (utf8_size (lit "}")) with 1%nat. lia.
Qed.

Lemma json_dumps_encodable (ext : str) (w : @Dict.t str Z) (d : list item) :
  encodable ext = true ->
  (forall k, In k (Dict.keys w) -> encodable k = true) ->
  (forall s, In (Str s) d -> encodable s = true) ->
  encodable
    (json_dumps {| extension := Some ext; words := Some w; data := Some d |})
  = true.
Proof.
  intros Ve Vw Vd. unfold json_dumps.
  cbn [json_field extension words data app join_with].
  rewrite !encodable_app, !encodable_lit.
  rewrite (json_string_encodable ext Ve), (json_words_encodable w Vw),
    (json_array_encodable d Vd), !json_string_encodable by apply encodable_lit.
  reflexivity.
Qed.

Lemma json_dumps_size (ext : str) (w : @Dict.t str Z) (d : list item) :
  (31 + utf8_size (json_string ext) + utf8_size (json_words w)
   + utf8_size (json_array d)
   <= utf8_size
        (json_dumps {| extension := Some ext; words := Some w; data := Some d |}))%nat.
Proof.
  unfold json_dumps.
  cbn [json_field extension words data app join_with].
  rewrite !utf8_size_app.
  change (utf8_size (lit "{")) with 1%nat.
  change (utf8_size (lit "}")) with 1%nat.
  change (utf8_size (lit ",")) with 1%nat.
  change (utf8_size (lit ":")) with 1%nat.
  change (utf8_size (json_string (lit "extension"))) with 11%nat.
  change (utf8_size (json_string (lit "words"))) with 7%nat.
  change (utf8_size (json_string (lit "data"))) with 6%nat.
  lia.
Qed.

Lemma size_check_sizes (text : str) (original : list N) (r : record) :
  utf8_encode text = Some original ->
  encodable (json_dumps r) = true ->
  size_check text r
  = Some (if Z.of_nat (utf8_size (json_dumps r)) >=? Z.of_nat (length original)
          then NotSmaller (Z.of_nat (utf8_size (json_dumps r)))
                 (Z.of_nat (length original))
          else Saved (Z.of_nat (length original))
                 (Z.of_nat (utf8_size (json_dumps r)))).
Proof.
  intros Et Vj. unfold size_check. rewrite Et.
  destruct (utf8_encode_encodable _ Vj) as [bs [-> <-]]. reflexivity.
Qed.

Lemma tokens_encodable (text t : str) :
  encodable text = true -> In t (re_split text) -> encodable t = true.
Proof.
  intros V I. rewrite <- (join_tokens text), encodable_concat in V.
  rewrite forallb_forall in V. apply V, I.
Qed.

Lemma record_encodable (text ext : str) :
  encodable text = true -> encodable ext = true ->
  encodable
    (json_dumps
       {| extension := Some ext;
          words := Some (assign_ids (worth_replacing (re_split text)) 0
                           (ranked_tokens (re_split text)));
          data := Some (map (encode_token
                               (assign_ids (worth_replacing (re_split text)) 0
                                  (ranked_tokens (re_split text))))
                          (re_split text)) |})
  = true.
Proof.
  intros Vt Ve. apply json_dumps_encodable; [exact Ve | |].
  - intros k I. apply word_dict_keys_iff in I.
    apply (tokens_encodable text); [exact Vt | apply I].
  - intros s I. apply in_map_iff in I. destruct I as [t [E I]].
    unfold encode_token in E.
    destruct (Dict.get str_eq_dec _ t); [discriminate E |].
    injection E as <-. apply (tokens_encodable text); assumption.
Qed.

(** X25.  The size check raises nothing on a text and an extension that can
    be encoded in UTF-8, as any text read from a UTF-8 file can: the record
    is built and one of the two messages is printed. *)
Theorem size_check_never_raises (text ext : str) (original e : list N) :
  utf8_encode text = Some original ->
  utf8_encode ext = Some e ->
  exists r a, compress_file text ext = Ok r /\ size_check text r = Some a.
Proof.
  intros Et Ee. apply utf8_encode_Some in Ee. destruct Ee as [Ve _].
  destruct (utf8_encode_Some _ _ Et) as [Vt _].
  eexists. eexists. split; [apply compress_ok |].
  apply (size_check_sizes text original); [exact Et |].
  apply record_encodable; assumption.
Qed.

Lemma size_check_never_raises_witness :
  exists r a,
    compress_file (lit "to be or not to be") (lit ".txt") = Ok r
    /\ size_check (lit "to be or not to be") r = Some a.
Proof.
  apply (size_check_never_raises (lit "to be or not to be") (lit ".txt")
           (lit "to be or not to be") (lit ".txt")); reflexivity.
Defined.

Lemma json_item_size (it : item) : (1 <= utf8_size (json_item it))%nat.
Proof.
  destruct it as [i | s]; simpl.
  - apply format_int_size.
  - pose proof (json_string_size s). lia.
Qed.

Lemma literal_items_size (tokens : list str) :
  (utf8_size (concat tokens)
   <= utf8_size (concat (map json_item (map (encode_token []) tokens))))%nat.
Proof.
  induction tokens as [| t tokens IH]; [simpl; lia |].
  cbn [map concat]. change (encode_token [] t) with (Str t). cbn [json_item].
  rewrite !utf8_size_app. pose proof (json_string_size t). lia.
Qed.

(** X26.  When no token is worth replacing, so that [words] is empty, the
    record is at least 37 bytes larger than the text and the warning is
    printed. *)
Theorem no_replacement_no_gain (text ext : str) (original e : list N)
    (r : record) :
  utf8_encode text = Some original ->
  utf8_encode ext = Some e ->
  compress_file text ext = Ok r ->
  words r = Some [] ->
  exists compressed_size,
    size_check text r
    = Some (NotSmaller compressed_size (Z.of_nat (length original)))
    /\ compressed_size >= Z.of_nat (length original) + 37.
Proof.
  intros Et Ee C W. apply utf8_encode_Some in Ee. destruct Ee as [Ve _].
  destruct (utf8_encode_Some _ _ Et) as [Vt Lt].
  pose proof (record_encodable text ext Vt Ve) as Vj.
  rewrite compress_ok in C. injection C as <-. simpl in W. injection W as W.
  rewrite W in *.
  pose proof (json_dumps_size ext []
                (map (encode_token []) (re_split text))) as Sz.
  pose proof (json_string_size ext) as Se.
  pose proof (json_words_size []) as Sw.
  pose proof (json_array_size (map (encode_token []) (re_split text))) as Sa.
  pose proof (literal_items_size (re_split text)) as Sl.
  rewrite join_tokens in Sl.
  rewrite (size_check_sizes text original _ Et Vj).
  match goal with
  | |- context [Z.geb ?a ?b] => destruct (Z.geb_spec a b) as [G | G]
  end.
  - eexists. split; [reflexivity | lia].
  - exfalso. lia.
Qed.

Lemma no_replacement_no_gain_witness :
  exists compressed_size,
    size_check (lit "a b")
      {| extension := Some (lit ".txt");
         words := Some [];
         data := Some [Str (lit "a"); Str (lit " "); Str (lit "b")] |}
    = Some (NotSmaller compressed_size (Z.of_nat (length (lit "a b"))))
    /\ compressed_size >= Z.of_nat (length (lit "a b")) + 37.
Proof.
  apply (no_replacement_no_gain (lit "a b") (lit ".txt")
           (lit "a b") (lit ".txt")); reflexivity.
Defined.

Lemma record_size_lower_bound (text ext : str) :
  (38 <= utf8_size
           (json_dumps
              {| extension := Some ext;
                 words := Some (assign_ids (worth_replacing (re_split text)) 0
                                  (ranked_tokens (re_split text)));
                 data := Some (map (encode_token
                                      (assign_ids (worth_replacing (re_split text)) 0
                                         (ranked_tokens (re_split text))))
                                 (re_split text)) |}))%nat.
Proof.
  set (w := assign_ids (worth_replacing (re_split text)) 0
              (ranked_tokens (re_split text))).
  set (d := map (encode_token w) (re_split text)).
  pose proof (json_dumps_size ext w d) as Sz.
  pose proof (json_string_size ext) as Se.
  pose proof (json_words_size w) as Sw.
  pose proof (json_array_size d) as Sa.
  assert (Si : (1 <= utf8_size (concat (map json_item d)))%nat).
  { unfold d. destruct (re_split_split_shape text) as [t [l' [-> _]]].
    simpl. rewrite utf8_size_app.
    pose proof (json_item_size (encode_token w t)). lia. }
  lia.
Qed.

(** X27.  The record is never smaller than 38 bytes: for a text of at most
    38 bytes the warning is printed, whatever the text. *)
Theorem short_text_no_gain (text ext : str) (original e : list N) :
  utf8_encode text = Some original ->
  utf8_encode ext = Some e ->
  (length original <= 38)%nat ->
  exists r compressed_size,
    compress_file text ext = Ok r
    /\ size_check text r
       = Some (NotSmaller compressed_size (Z.of_nat (length original))).
Proof.
  intros Et Ee Short. apply utf8_encode_Some in Ee. destruct Ee as [Ve _].
  destruct (utf8_encode_Some _ _ Et) as [Vt Lt].
  eexists. eexists. split; [apply compress_ok |].
  rewrite (size_check_sizes text original _ Et (record_encodable text ext Vt Ve)).
  pose proof (record_size_lower_bound text ext) as Lb.
  match goal with
  | |- context [Z.geb ?a ?b] => destruct (Z.geb_spec a b) as [G | G]
  end.
  - reflexivity.
  - exfalso. lia.
Qed.

Lemma short_text_no_gain_witness :
  exists r compressed_size,
    compress_file (lit "hello hello hello hello hello") (lit "") = Ok r
    /\ size_check (lit "hello hello hello hello hello") r
       = Some (NotSmaller compressed_size
                 (Z.of_nat (length (lit "hello hello hello hello hello")))).
Proof.
  apply (short_text_no_gain (lit "hello hello hello hello hello") (lit "")
           (lit "hello hello hello hello hello") (lit ""));
    [reflexivity | reflexivity | simpl; lia].
Defined.

(** X28.  When the saving is reported, the text is larger than the record,
    which has at least 38 bytes: the size by which line 77 divides is never
    zero. *)
Theorem saving_implies_large_text (text ext : str) (r : record)
    (original_size compressed_size : Z) :
  compress_file text ext = Ok r ->
  size_check text r = Some (Saved original_size compressed_size) ->
  38 <= compressed_size < original_size.
Proof.
  intros C S. rewrite compress_ok in C. injection C as <-.
  pose proof (record_size_lower_bound text ext) as Lb.
  unfold size_check in S.
  destruct (utf8_encode text) as [original |]; [| discriminate S].
  destruct (utf8_encode (json_dumps _)) as [compressed |] eqn:Ej;
    [| discriminate S].
  apply utf8_encode_Some in Ej. destruct Ej as [_ Lj].
  cbv zeta in S.
  destruct (Z.geb_spec (Z.of_nat (length compressed))
              (Z.of_nat (length original))) as [G | G];
    [discriminate S |].
  injection S as <- <-. lia.
Qed.

Lemma saving_implies_large_text_witness :
  38 <= 102 < 131.
Proof.
  apply (saving_implies_large_text
           (lit "abcdefghij abcdefghij abcdefghij abcdefghij abcdefghij abcdefghij abcdefghij abcdefghij abcdefghij abcdefghij abcdefghij abcdefghij")
           (lit "")
           {| extension := Some (lit "");
              words := Some [(lit "abcdefghij", 1); (lit " ", 2)];
              data := Some [Int 1; Int 2; Int 1; Int 2; Int 1; Int 2; Int 1;
                            Int 2; Int 1; Int 2; Int 1; Int 2; Int 1; Int 2;
                            Int 1; Int 2; Int 1; Int 2; Int 1; Int 2; Int 1;
                            Int 2; Int 1] |});
    vm_compute; reflexivity.
Defined.
